(** * Package [trace]: a shallow embedding of [trace.go]

    The package keeps a registry of logging groups and a global trace
    flag, funnels every log request and every enablement change through
    one buffered channel, and lets a single goroutine ([logRoutine])
    execute the queued commands in arrival order.

    The development has three layers:
    - the values the code manipulates: groups, writers, times and their
      textual rendering ([Format] for the layout used by [printLog]);
    - the sequential code: the [do] methods of the four command types,
      [printLog], [RegisterGroup], [SetDefaultOutput], written in a small
      state-and-panic monad over the package-level variables;
    - the concurrent code: the channel, the worker goroutine, the wait
      group and [Done], as a labelled transition system whose labels are
      the atomic actions of the producers, of the worker and of [Done]. *)

From Stdlib Require Import ZArith Lia Bool String Ascii List.
From stdpp Require Import base list strings.

Local Open Scope string_scope.
Local Open Scope list_scope.
Local Open Scope Z_scope.

(** ** Constants of the package *)

(** [DefaultGroupId]: the ID of the default logging group. *)
Definition DefaultGroupId : Z := 0.

(** [chanBufSize]: number of requests the channel buffer can hold. *)
Definition chanBufSize : nat := 1024.

(** [type level int], with [trace = iota + 1] and [info] after it. *)
Definition level : Type := Z.
Definition trace : level := 1.
Definition info : level := 2.

(** ** Writers

    An [io.Writer] is a handle; what has been written through the handles
    is recorded, in order, in the store below.  [Stdout] is [os.Stdout]. *)
Definition Writer : Type := nat.
Definition Stdout : Writer := 0%nat.

(** ** Times and their rendering

    A [time.Time] is an instant (seconds and nanoseconds since the Unix
    epoch) together with the offset of its location, east of UTC, in
    seconds.  [UTC] keeps the instant and sets the location to UTC. *)
Record Time : Type := mkTime {
  unixSec : Z;
  nsec : Z;
  zoneOffset : Z
}.

Definition UTC (t : Time) : Time :=
  {| unixSec := unixSec t; nsec := nsec t; zoneOffset := 0 |}.

(** Wall-clock seconds since the epoch in the location of [t]. *)
Definition wallSec (t : Time) : Z := unixSec t + zoneOffset t.

Definition secondsPerDay : Z := 86400.

Definition Hour (t : Time) : Z := (wallSec t mod secondsPerDay) / 3600.
Definition Minute (t : Time) : Z := (wallSec t mod 3600) / 60.
Definition Second (t : Time) : Z := wallSec t mod 60.
Definition Nanosecond (t : Time) : Z := nsec t.

(** Days since 1970-01-01 and their date in the proleptic Gregorian
    calendar, computed over 400-year eras that start on March 1st. *)
Definition daysSinceEpoch (t : Time) : Z := wallSec t / secondsPerDay.

Definition dayOfEra (days : Z) : Z := (days + 719468) mod 146097.
Definition eraOf (days : Z) : Z := (days + 719468) / 146097.

Definition yearOfEra (doe : Z) : Z :=
  (doe - doe / 1460 + doe / 36524 - doe / 146096) / 365.

Definition dayOfYear (doe : Z) : Z :=
  let yoe := yearOfEra doe in
  doe - (365 * yoe + yoe / 4 - yoe / 100).

(** Month index counted from March = 0. *)
Definition marchMonth (doy : Z) : Z := (5 * doy + 2) / 153.

Definition civilDay (days : Z) : Z :=
  let doy := dayOfYear (dayOfEra days) in
  doy - (153 * marchMonth doy + 2) / 5 + 1.

Definition civilMonth (days : Z) : Z :=
  let mp := marchMonth (dayOfYear (dayOfEra days)) in
  if mp <? 10 then mp + 3 else mp - 9.

Definition civilYear (days : Z) : Z :=
  let y := yearOfEra (dayOfEra days) + eraOf days * 400 in
  if civilMonth days <=? 2 then y + 1 else y.

Definition Year (t : Time) : Z := civilYear (daysSinceEpoch t).
Definition Month (t : Time) : Z := civilMonth (daysSinceEpoch t).
Definition Day (t : Time) : Z := civilDay (daysSinceEpoch t).

(** *** Decimal rendering, as [appendInt] of package [time] does it:
    an optional minus sign, then the decimal digits, left-padded with
    zeros up to [width]. *)
Definition digitChar (d : Z) : ascii := ascii_of_nat (48 + Z.to_nat d).

Fixpoint decimal (fuel : nat) (u : Z) : string :=
  match fuel with
  | O => EmptyString
  | S fuel' =>
      if u <? 10 then String (digitChar u) EmptyString
      else decimal fuel' (u / 10) +:+ String (digitChar (u mod 10)) EmptyString
  end.

Fixpoint zeros (n : nat) : string :=
  match n with
  | O => EmptyString
  | S n' => String "0"%char (zeros n')
  end.

(** The scratch buffer of [appendInt] has 20 bytes. *)
Definition appendInt (x : Z) (width : nat) : string :=
  let d := decimal 20 (Z.abs x) in
  (if x <? 0 then "-" else EmptyString) +:+ zeros (width - String.length d) +:+ d.

(** First [n] characters of a string. *)
Definition firstChars (n : nat) (s : string) : string :=
  String.substring 0 n s.

(** The fractional-second field [.000000]: a dot, then the nanoseconds
    padded to nine digits and cut to the first [n] of them. *)
Definition appendNano (nanosec : Z) (n : nat) : string :=
  "." +:+ firstChars n (appendInt nanosec 9).

(** *** Layouts

    The pieces that the reference layout ["2006-1-2 15:04:05.000000"]
    splits into: the long year, the month and the day as plain numbers,
    the hour, the zero-padded minute and second, a fractional second of
    a fixed number of digits, and literal text. *)
Inductive chunk : Type :=
  | stdLongYear
  | stdNumMonth
  | stdDay
  | stdHour
  | stdZeroMinute
  | stdZeroSecond
  | stdFracSecond0 (digits : nat)
  | literal (s : string).

Definition formatChunk (t : Time) (c : chunk) : string :=
  match c with
  | stdLongYear => appendInt (Year t) 4
  | stdNumMonth => appendInt (Month t) 0
  | stdDay => appendInt (Day t) 0
  | stdHour => appendInt (Hour t) 2
  | stdZeroMinute => appendInt (Minute t) 2
  | stdZeroSecond => appendInt (Second t) 2
  | stdFracSecond0 n => appendNano (Nanosecond t) n
  | literal s => s
  end.

Fixpoint Format (t : Time) (layout : list chunk) : string :=
  match layout with
  | [] => EmptyString
  | c :: rest => formatChunk t c +:+ Format t rest
  end.

(** The layout string of [printLog], ["2006-1-2 15:04:05.000000"]. *)
Definition logLayout : list chunk :=
  [ stdLongYear; literal "-"; stdNumMonth; literal "-"; stdDay; literal " ";
    stdHour; literal ":"; stdZeroMinute; literal ":"; stdZeroSecond;
    stdFracSecond0 6 ].

(** A clock reading as [time.Now] returns it: the nanoseconds lie within
    one second. *)
Definition validTime (t : Time) : Prop := 0 <= nsec t < 1000000000.

(** ** The package-level variables

    [groupData] as in the source.  The registry [groups] is a slice of
    pointers to such records; no pointer is ever stored anywhere else, so
    the slice is a list of records and an assignment through a pointer
    replaces the list element. *)
Record groupData : Type := mkGroup {
  name : string;
  output : Writer;
  enabled : bool
}.

(** The variables [groups] and [traceEnabled], and with them the record
    of every [Write] call made so far on any writer, oldest first (one
    [Fprintf] is one [Write] of the whole line). *)
Record Store : Type := mkStore {
  groups : list groupData;
  traceEnabled : bool;
  written : list (Writer * string)
}.

Definition setGroups (gs : list groupData) (st : Store) : Store :=
  {| groups := gs; traceEnabled := traceEnabled st; written := written st |}.

Definition setTraceEnabled (b : bool) (st : Store) : Store :=
  {| groups := groups st; traceEnabled := b; written := written st |}.

Definition addWrite (w : Writer) (line : string) (st : Store) : Store :=
  {| groups := groups st; traceEnabled := traceEnabled st;
     written := written st ++ [(w, line)] |}.

(** What one writer has received, in order. *)
Definition sink (w : Writer) (st : Store) : list string :=
  map snd (List.filter (fun e => Nat.eqb (fst e) w) (written st)).

(** ** Panics and the monad of the sequential code *)
Inductive panic : Type :=
  | IndexOutOfRange (i : Z) (len : nat)
  | NilDereference
  | SendOnClosedChannel
  | CloseOfClosedChannel
  | PanicValue (msg : string).

(** A computation either returns a value or panics; both leave a store
    behind (a panic leaves the variables as they were when it was
    raised). *)
Inductive Result (A : Type) : Type :=
  | Ok (a : A) (st : Store)
  | Panicked (p : panic) (st : Store).
Arguments Ok {A} a st.
Arguments Panicked {A} p st.

Definition M (A : Type) : Type := Store -> Result A.

Definition ret {A} (a : A) : M A := fun st => Ok a st.

Definition bind {A B} (m : M A) (k : A -> M B) : M B :=
  fun st =>
    match m st with
    | Ok a st' => k a st'
    | Panicked p st' => Panicked p st'
    end.

Definition raise {A} (p : panic) : M A := fun st => Panicked p st.

Notation "x <- m ;; k" := (bind m (fun x => k))
  (at level 100, m at next level, right associativity).
Notation "m ;;; k" := (bind m (fun _ => k))
  (at level 100, right associativity).

(** [groups[i]]: a checked slice access. *)
Definition index (i : Z) : M groupData :=
  fun st =>
    if (0 <=? i) && (i <? Z.of_nat (length (groups st))) then
      match groups st !! Z.to_nat i with
      | Some gd => Ok gd st
      | None => Panicked (IndexOutOfRange i (length (groups st))) st
      end
    else Panicked (IndexOutOfRange i (length (groups st))) st.

(** [groups[i] = gd], or the same update made through the pointer
    [groups[i]]. *)
Definition setIndex (i : Z) (gd : groupData) : M unit :=
  fun st =>
    if (0 <=? i) && (i <? Z.of_nat (length (groups st))) then
      Ok tt (setGroups (<[Z.to_nat i := gd]> (groups st)) st)
    else Panicked (IndexOutOfRange i (length (groups st))) st.

(** [groups = append(groups, gd)]. *)
Definition appendGroup (gd : groupData) : M unit :=
  fun st => Ok tt (setGroups (groups st ++ [gd]) st).

Definition lenGroups : M Z :=
  fun st => Ok (Z.of_nat (length (groups st))) st.

(** [fmt.Fprintf(w, ...)] with the formatted text [line]; the error that
    the writer returns is dropped by the callers. *)
Definition Fprintf (w : Writer) (line : string) : M unit :=
  fun st => Ok tt (addWrite w line st).

Definition newline : string := String (ascii_of_nat 10) EmptyString.

(** ** [printLog] *)
Definition printLog (group : Z) (t : Time) (msg : string) : M unit :=
  let strTime := Format (UTC t) logLayout in
  if group =? DefaultGroupId then
    g0 <- index DefaultGroupId ;;
    Fprintf (output g0) (strTime +:+ " " +:+ msg +:+ newline)
  else
    g <- index group ;;
    let groupname := name g in
    g' <- index group ;;
    Fprintf (output g')
      (strTime +:+ " [" +:+ groupname +:+ "] " +:+ msg +:+ newline).

(** ** The commands and their [do] methods

    [logApi] is the interface; its implementations are the four command
    types.  [nilApi] is the nil interface value. *)
Inductive logApi : Type :=
  | traceMsg (group : Z) (t : Time) (msg : string)
  | infoMsg (group : Z) (t : Time) (msg : string)
  | cmdEnabletrace (on : bool)
  | cmdEnableGroup (group : Z) (on : bool)
  | nilApi.

Definition traceMsg_do (group : Z) (t : Time) (msg : string) : M unit :=
  fun st =>
    if traceEnabled st then
      (g <- index group ;;
       if enabled g then printLog group t msg else ret tt) st
    else ret tt st.

Definition infoMsg_do (group : Z) (t : Time) (msg : string) : M unit :=
  g <- index group ;;
  if enabled g then printLog group t msg else ret tt.

Definition cmdEnabletrace_do (on : bool) : M unit :=
  fun st => Ok tt (setTraceEnabled on st).

Definition cmdEnableGroup_do (group : Z) (on : bool) : M unit :=
  g <- index group ;;
  setIndex group {| name := name g; output := output g; enabled := on |}.

(** [i.do()] on an interface value. *)
Definition do_ (c : logApi) : M unit :=
  match c with
  | traceMsg g t m => traceMsg_do g t m
  | infoMsg g t m => infoMsg_do g t m
  | cmdEnabletrace on => cmdEnabletrace_do on
  | cmdEnableGroup g on => cmdEnableGroup_do g on
  | nilApi => raise NilDereference
  end.

(** ** [RegisterGroup] and [SetDefaultOutput] *)
Definition defaultGroup (out : Writer) (on : bool) : groupData :=
  {| name := EmptyString; output := out; enabled := on |}.

(** The loop [for _, group := range groups] of [RegisterGroup]. *)
Fixpoint checkName (nm : string) (gs : list groupData) : M unit :=
  match gs with
  | [] => ret tt
  | group :: rest =>
      if String.eqb nm (name group)
      then raise (PanicValue "Group name already exists")
      else checkName nm rest
  end.

Definition RegisterGroup (nm : string) (out : Writer) (on : bool) : M Z :=
  fun st =>
    (checkName nm (groups st) ;;;
     n <- lenGroups ;;
     (if n =? 0 then appendGroup (defaultGroup Stdout true) else ret tt) ;;;
     appendGroup {| name := nm; output := out; enabled := on |} ;;;
     n' <- lenGroups ;;
     ret (n' - 1)) st.

Definition SetDefaultOutput (out : Writer) : M unit :=
  n <- lenGroups ;;
  if n =? 0 then appendGroup (defaultGroup out true)
  else
    g0 <- index 0 ;;
    setIndex 0 (defaultGroup out (enabled g0)).

(** ** Message text

    [fmt.Sprint] and [fmt.Sprintf] belong to the standard library; the
    package only chooses between them.  They are taken as an interface,
    together with the type of the variadic arguments. *)
Class Fmt : Type := {
  Arg : Type;
  Sprint : list Arg -> string;
  Sprintf : string -> list Arg -> string
}.

(** The command that [log] builds before it sends it; [now] is the value
    of [time.Now()] at the call.  A level that is neither [trace] nor
    [info] leaves [cmd] nil. *)
Definition logCommand `{Fmt} (group : Z) (l : level) (format : string)
    (a : list Arg) (now : Time) : logApi :=
  let m := if (0 <? String.length format)%nat
           then Sprintf format a else Sprint a in
  if l =? trace then traceMsg group now m
  else if l =? info then infoMsg group now m
  else nilApi.

(** ** The running system

    The channel [logstream] with its buffer and its closed bit, the wait
    group's counter, the worker goroutine and the caller of [Done].  The
    history variable [handled] records the commands whose [do] the worker
    has completed, oldest first; no transition reads it. *)
Inductive workerState : Type := Running | Exited.
Inductive doneState : Type := NotCalled | Waiting | Returned.

Record Sys : Type := mkSys {
  store : Store;
  logstream : list logApi;
  closed : bool;
  waitGroup : Z;
  worker : workerState;
  doneCall : doneState;
  handled : list logApi
}.

Definition withStore (st : Store) (s : Sys) : Sys :=
  {| store := st; logstream := logstream s; closed := closed s;
     waitGroup := waitGroup s; worker := worker s; doneCall := doneCall s;
     handled := handled s |}.

(** What an atomic action does: it completes, it cannot proceed yet, or
    it panics, which ends the process (nothing in the package recovers). *)
Inductive outcome : Type :=
  | Next (s : Sys)
  | Blocked
  | Crash (p : panic) (s : Sys).

Definition zeroStore : Store :=
  {| groups := []; traceEnabled := false; written := [] |}.

(** [reset], started from variables [st] when no worker is alive: at
    process start (from [init]) or after a completed [Done]. *)
Definition reset (st : Store) : Sys :=
  {| store := if (length (groups st) =? 0)%nat
              then setGroups (groups st ++ [defaultGroup Stdout true]) st
              else st;
     logstream := [];
     closed := false;
     waitGroup := 1;
     worker := Running;
     doneCall := NotCalled;
     handled := [] |}.

(** The state after [init]. *)
Definition initial : Sys := reset zeroStore.

(** [logstream <- c]. *)
Definition send (c : logApi) (s : Sys) : outcome :=
  if closed s then Crash SendOnClosedChannel s
  else if (length (logstream s) <? chanBufSize)%nat then
    Next {| store := store s; logstream := logstream s ++ [c];
            closed := closed s; waitGroup := waitGroup s;
            worker := worker s; doneCall := doneCall s;
            handled := handled s |}
  else Blocked.

(** One turn of [logRoutine]: receive the next command and run its [do],
    or leave the loop when the channel is closed and empty and call
    [waitGroup.Done()]. *)
Definition logRoutine (s : Sys) : outcome :=
  match worker s with
  | Exited => Blocked
  | Running =>
      match logstream s with
      | i :: rest =>
          match do_ i (store s) with
          | Ok _ st' =>
              Next {| store := st'; logstream := rest; closed := closed s;
                      waitGroup := waitGroup s; worker := Running;
                      doneCall := doneCall s; handled := handled s ++ [i] |}
          | Panicked p st' =>
              Crash p {| store := st'; logstream := rest; closed := closed s;
                         waitGroup := waitGroup s; worker := Running;
                         doneCall := doneCall s;
                         handled := handled s |}
          end
      | [] =>
          if closed s then
            Next {| store := store s; logstream := []; closed := true;
                    waitGroup := waitGroup s - 1; worker := Exited;
                    doneCall := doneCall s;
                    handled := handled s |}
          else Blocked
      end
  end.

(** [Done], first statement: [close(logstream)]. *)
Definition Done_close (s : Sys) : outcome :=
  if closed s then Crash CloseOfClosedChannel s
  else
    Next {| store := store s; logstream := logstream s; closed := true;
            waitGroup := waitGroup s; worker := worker s;
            doneCall := Waiting; handled := handled s |}.

(** [Done], second statement: [waitGroup.Wait()] returns once the counter
    is zero. *)
Definition Done_wait (s : Sys) : outcome :=
  match doneCall s with
  | Waiting =>
      if waitGroup s =? 0 then
        Next {| store := store s; logstream := logstream s;
                closed := closed s; waitGroup := waitGroup s;
                worker := worker s; doneCall := Returned;
                handled := handled s |}
      else Blocked
  | _ => Blocked
  end.

(** A call of sequential code that touches the variables directly. *)
Definition direct {A} (m : M A) (s : Sys) : outcome :=
  match m (store s) with
  | Ok _ st' => Next (withStore st' s)
  | Panicked p st' => Crash p (withStore st' s)
  end.

(** ** The public functions that go through the channel *)
Definition log `{Fmt} (group : Z) (l : level) (format : string)
    (a : list Arg) (now : Time) : Sys -> outcome :=
  send (logCommand group l format a now).

Definition EnableGroup (group : Z) (on : bool) : Sys -> outcome :=
  send (cmdEnableGroup group on).

Definition EnableTrace (on : bool) : Sys -> outcome :=
  send (cmdEnabletrace on).

Definition Info `{Fmt} (a : list Arg) := log 0 info EmptyString a.
Definition Infof `{Fmt} (format : string) (a : list Arg) := log 0 info format a.
Definition Infog `{Fmt} (group : Z) (a : list Arg) := log group info EmptyString a.
Definition Infogf `{Fmt} (group : Z) (format : string) (a : list Arg) :=
  log group info format a.
Definition Trace `{Fmt} (a : list Arg) := log 0 trace EmptyString a.
Definition Tracef `{Fmt} (format : string) (a : list Arg) :=
  log 0 trace format a.
Definition Traceg `{Fmt} (group : Z) (a : list Arg) := log group trace EmptyString a.
Definition Tracegf `{Fmt} (group : Z) (format : string) (a : list Arg) :=
  log group trace format a.

(** ** Executions

    The atomic actions: a producer completes a send (the last statement of
    [log], [EnableGroup] and [EnableTrace]); a caller runs [RegisterGroup]
    or [SetDefaultOutput]; the worker takes a turn; [Done] closes the
    channel; [Done] returns from its wait. *)
Inductive label : Type :=
  | Send (c : logApi)
  | CallRegisterGroup (nm : string) (out : Writer) (on : bool)
  | CallSetDefaultOutput (out : Writer)
  | WorkerTurn
  | DoneClose
  | DoneWait.

Definition step (l : label) (s : Sys) : outcome :=
  match l with
  | Send c => send c s
  | CallRegisterGroup nm out on => direct (RegisterGroup nm out on) s
  | CallSetDefaultOutput out => direct (SetDefaultOutput out) s
  | WorkerTurn => logRoutine s
  | DoneClose => Done_close s
  | DoneWait => Done_wait s
  end.

(** An execution is a sequence of completed actions; it stops at the
    first action that cannot proceed or that panics. *)
Fixpoint run (ls : list label) (s : Sys) : outcome :=
  match ls with
  | [] => Next s
  | l :: rest =>
      match step l s with
      | Next s' => run rest s'
      | o => o
      end
  end.

(** The commands sent during an execution, in order. *)
Fixpoint sends (ls : list label) : list logApi :=
  match ls with
  | [] => []
  | Send c :: rest => c :: sends rest
  | _ :: rest => sends rest
  end.

(** [Done] run to completion by a caller, the worker being given the
    processor until it has emptied the channel. *)
Definition Done_schedule (s : Sys) : list label :=
  DoneClose :: repeat WorkerTurn (length (logstream s))
    ++ [WorkerTurn; DoneWait].

Definition Done (s : Sys) : outcome := run (Done_schedule s) s.

(** The sequential meaning of a list of commands: each [do] in turn. *)
Fixpoint doAll (cs : list logApi) : M unit :=
  match cs with
  | [] => ret tt
  | c :: rest => do_ c ;;; doAll rest
  end.

(** ** What an execution does to the variables

    The code that an execution runs on the variables: the [do] of a
    command, run by the worker, or a call of [RegisterGroup] or
    [SetDefaultOutput], run by a caller. *)
Inductive action : Type :=
  | Do (c : logApi)
  | Register (nm : string) (out : Writer) (on : bool)
  | Redirect (out : Writer).

Definition perform (a : action) : M unit :=
  match a with
  | Do c => do_ c
  | Register nm out on => RegisterGroup nm out on ;;; ret tt
  | Redirect out => SetDefaultOutput out
  end.

Fixpoint performAll (acts : list action) : M unit :=
  match acts with
  | [] => ret tt
  | a :: rest => perform a ;;; performAll rest
  end.

(** The actions of an execution in the order in which they ran, read off
    its labels alone; [queue] holds the commands sent and not yet taken.
    A send runs nothing, it only puts its command at the end of the
    queue; a turn of the worker runs the [do] of the oldest command of
    the queue (or nothing, on an empty queue); the two statements of
    [Done] run nothing. *)
Fixpoint replay (ls : list label) (queue : list logApi) : list action :=
  match ls with
  | [] => []
  | Send c :: rest => replay rest (queue ++ [c])
  | CallRegisterGroup nm out on :: rest =>
      Register nm out on :: replay rest queue
  | CallSetDefaultOutput out :: rest => Redirect out :: replay rest queue
  | WorkerTurn :: rest =>
      match queue with
      | c :: queue' => Do c :: replay rest queue'
      | [] => replay rest []
      end
  | DoneClose :: rest => replay rest queue
  | DoneWait :: rest => replay rest queue
  end.

(** The commands among a list of actions. *)
Fixpoint commandsOf (acts : list action) : list logApi :=
  match acts with
  | [] => []
  | Do c :: rest => c :: commandsOf rest
  | _ :: rest => commandsOf rest
  end.

(** ** Shapes of rendered fields

    A field of exactly [n] decimal digits, and a number printed without
    padding: digits only, the first of them not a zero. *)
Definition isDigit (c : ascii) : bool :=
  let n := nat_of_ascii c in (48 <=? n)%nat && (n <=? 57)%nat.

Fixpoint allDigits (s : string) : bool :=
  match s with
  | EmptyString => true
  | String c r => isDigit c && allDigits r
  end.

Definition fixedDigits (n : nat) (s : string) : Prop :=
  String.length s = n /\ allDigits s = true.

Definition plainDigits (s : string) : Prop :=
  allDigits s = true /\ exists c r, s = String c r /\ c <> "0"%char.

(** The [w] low decimal digits of [x], most significant first. *)
Fixpoint fixedDecimal (w : nat) (x : Z) : string :=
  match w with
  | O => EmptyString
  | S w' => fixedDecimal w' (x / 10) +:+ String (digitChar (x mod 10)) EmptyString
  end.

(** The store that a computation leaves behind, whether it returned or
    panicked. *)
Definition storeOf {A} (r : Result A) : Store :=
  match r with
  | Ok _ st => st
  | Panicked _ st => st
  end.

(** Whether a character occurs in a string. *)
Fixpoint occurs (c : ascii) (s : string) : bool :=
  match s with
  | EmptyString => false
  | String x r => Ascii.eqb x c || occurs c r
  end.

(** The two line formats as the interface section of the specification
    words them: [TIMESTAMP [ MESSAGE] for the default group and
    [TIMESTAMP [GROUPNAME] MESSAGE] for a named one, each followed by a
    newline.  These follow the specification, not the code. *)
Definition wireDefaultLine (timestamp message : string) : string :=
  timestamp +:+ " [ " +:+ message +:+ newline.

Definition wireNamedLine (timestamp groupname message : string) : string :=
  timestamp +:+ " [" +:+ groupname +:+ "] " +:+ message +:+ newline.

(** ** Vocabulary for the statements about executions *)

(** The text of the line that [printLog] writes for the group of index
    [group] and name [nm]. *)
Definition lineText (group : Z) (nm : string) (t : Time) (msg : string)
  : string :=
  if group =? DefaultGroupId
  then Format (UTC t) logLayout +:+ " " +:+ msg +:+ newline
  else Format (UTC t) logLayout +:+ " [" +:+ nm +:+ "] " +:+ msg +:+ newline.

(** The registered group that an index denotes, if any. *)
Definition groupAt (st : Store) (i : Z) : option groupData :=
  if 0 <=? i then groups st !! Z.to_nat i else None.



(** The default group is present: the registry starts with a group of
    empty name. *)
Definition hasDefault (st : Store) : Prop :=
  exists g0 others, groups st = g0 :: others /\ name g0 = EmptyString.

(** The actions that belong to the channel protocol, as opposed to the
    calls that touch the variables from the caller's goroutine. *)
Definition viaChannel (l : label) : bool :=
  match l with
  | CallRegisterGroup _ _ _ | CallSetDefaultOutput _ => false
  | _ => true
  end.

(** The invariant of the protocol, for an execution that has sent the
    commands [cs] so far: what was sent is what the worker has completed
    followed by what the channel still holds; the counter of the wait
    group is one while the worker runs and zero once it has left its
    loop, which it does only on a closed and empty channel; [Done]
    returns only at zero; the channel is open exactly until [Done] is
    called. *)
Record protocol (cs : list logApi) (s : Sys) : Prop := {
  proto_history : handled s ++ logstream s = cs;
  proto_running : worker s = Running -> waitGroup s = 1;
  proto_exited :
    worker s = Exited ->
    waitGroup s = 0 /\ closed s = true /\ logstream s = [];
  proto_returned : doneCall s = Returned -> worker s = Exited;
  proto_open : doneCall s = NotCalled -> closed s = false;
  proto_closed : doneCall s <> NotCalled -> closed s = true
}.

(** ** Sample data

    The registry of [Test_LogGroup]: the default group on standard output
    and a group [test] on a writer of its own, here with the trace flag
    on; and a clock reading, 2000-02-29 12:34:56.123456789 UTC, taken in a
    location one hour east of UTC. *)
Definition testWriter : Writer := 1%nat.

Definition testStore : Store :=
  {| groups := [defaultGroup Stdout true;
                {| name := "test"; output := testWriter; enabled := true |}];
     traceEnabled := true;
     written := [] |}.

Definition leapNoon : Time :=
  {| unixSec := 951827696; nsec := 123456789; zoneOffset := 3600 |}.

(** ** Vocabulary for the further properties *)

(** What executing an info-level command for group [g] comes to: a panic
    on an index that denotes no group, one line on the group's writer
    when the group is enabled, nothing otherwise. *)
Definition emit (st : Store) (g : Z) (t : Time) (m : string) : Result unit :=
  match groupAt st g with
  | None => Panicked (IndexOutOfRange g (length (groups st))) st
  | Some gd =>
      if enabled gd
      then Ok tt (addWrite (output gd) (lineText g (name gd) t m) st)
      else Ok tt st
  end.

(** The commands built by the trace-level functions. *)
Definition isTrace (c : logApi) : Prop :=
  match c with
  | traceMsg _ _ _ => True
  | _ => False
  end.

(** The group a log command addresses. *)
Definition logGroup (c : logApi) : option Z :=
  match c with
  | traceMsg g _ _ | infoMsg g _ _ => Some g
  | _ => None
  end.

(** Index by index: the group found at an index before is found there
    after, with the same name and, past index 0, the same output. *)
Definition settled (st st' : Store) : Prop :=
  forall (i : nat) (gd : groupData),
    groups st !! i = Some gd ->
    exists gd', groups st' !! i = Some gd' /\ name gd' = name gd /\
                ((1 <= i)%nat -> output gd' = output gd).

(** ** Sample executions

    From the start of the package: a group is registered, logged to and
    disabled, the default output is redirected and used, and [Done] runs
    to its end.  And from the registry of the test: the trace flag is
    switched off, a trace-level and an info-level command follow, and
    [Done] runs to its end; here only the channel is used. *)
Definition sampleRun : list label :=
  [CallRegisterGroup "audit" 2%nat true;
   Send (infoMsg 1 leapNoon "login");
   Send (cmdEnableGroup 1 false);
   WorkerTurn;
   CallSetDefaultOutput 3%nat;
   Send (infoMsg 0 leapNoon "hello");
   WorkerTurn; WorkerTurn;
   DoneClose; WorkerTurn; DoneWait].

Definition channelRun : list label :=
  [Send (cmdEnabletrace false);
   Send (traceMsg 1 leapNoon "Test trace");
   Send (infoMsg 1 leapNoon "Test info");
   DoneClose; WorkerTurn; WorkerTurn; WorkerTurn; WorkerTurn; DoneWait].

(** * Properties *)

(** ** The layout on sample instants *)
Example Format_epoch :
  Format (UTC (mkTime 0 0 3600)) logLayout = "1970-1-1 00:00:00.000000".
Proof. reflexivity. Qed.

Example Format_leap_day :
  Format (UTC (mkTime 951827696 123456789 0)) logLayout
  = "2000-2-29 12:34:56.123456".
Proof. reflexivity. Qed.

Example Format_before_epoch :
  Format (UTC (mkTime (-1) 999999999 0)) logLayout
  = "1969-12-31 23:59:59.999999".
Proof. reflexivity. Qed.

Example Format_billion :
  Format (UTC (mkTime 1000000000 5000 (-18000))) logLayout
  = "2001-9-9 01:46:40.000005".
Proof. reflexivity. Qed.

Example Format_local_differs :
  Format (mkTime 1000000000 5000 (-18000)) logLayout
  = "2001-9-8 20:46:40.000005".
Proof. reflexivity. Qed.

(** A century year that is not a leap year, and the first year. *)
Example Format_century :
  Format (UTC (mkTime 4107542399 0 0)) logLayout = "2100-2-28 23:59:59.000000"
  /\ Format (UTC (mkTime 4107542400 0 0)) logLayout
     = "2100-3-1 00:00:00.000000"
  /\ Format (UTC (mkTime (-2203891201) 0 0)) logLayout
     = "1900-2-28 23:59:59.000000"
  /\ Format (UTC (mkTime (-2203891200) 0 0)) logLayout
     = "1900-3-1 00:00:00.000000".
Proof. repeat split. Qed.

Example Format_year_one :
  Format (UTC (mkTime (-62135596800) 1000 0)) logLayout
  = "0001-1-1 00:00:00.000001"
  /\ Format (UTC (mkTime 253402300799 999999000 0)) logLayout
     = "9999-12-31 23:59:59.999999".
Proof. repeat split. Qed.

(** ** Calendar fields *)
Lemma dayOfEra_range days : 0 <= dayOfEra days < 146097.
Proof. unfold dayOfEra. apply Z.mod_pos_bound. lia. Qed.

Lemma dayOfYear_range doe : 0 <= doe < 146097 -> 0 <= dayOfYear doe <= 365.
Proof.
  intros H. unfold dayOfYear, yearOfEra.
  Z.div_mod_to_equations; lia.
Qed.

Lemma marchMonth_range doy : 0 <= doy <= 365 -> 0 <= marchMonth doy <= 11.
Proof. intros H. unfold marchMonth. Z.div_mod_to_equations; lia. Qed.

Lemma civilMonth_range days : 1 <= civilMonth days <= 12.
Proof.
  unfold civilMonth.
  pose proof (marchMonth_range _ (dayOfYear_range _ (dayOfEra_range days))) as H.
  destruct (Z.ltb_spec (marchMonth (dayOfYear (dayOfEra days))) 10); lia.
Qed.

Lemma civilDay_range days : 1 <= civilDay days <= 31.
Proof.
  unfold civilDay.
  pose proof (dayOfYear_range _ (dayOfEra_range days)) as H.
  revert H. generalize (dayOfYear (dayOfEra days)). intros doy H.
  unfold marchMonth. Z.div_mod_to_equations; lia.
Qed.

Lemma Hour_range t : 0 <= Hour t <= 23.
Proof. unfold Hour, secondsPerDay. Z.div_mod_to_equations; lia. Qed.

Lemma Minute_range t : 0 <= Minute t <= 59.
Proof. unfold Minute. Z.div_mod_to_equations; lia. Qed.

Lemma Second_range t : 0 <= Second t <= 59.
Proof. unfold Second. Z.div_mod_to_equations; lia. Qed.

(** The three time-of-day fields split the seconds of the day. *)
Lemma clock_fields t :
  wallSec t mod secondsPerDay = Hour t * 3600 + Minute t * 60 + Second t.
Proof.
  unfold Hour, Minute, Second, secondsPerDay.
  Z.div_mod_to_equations; lia.
Qed.

(** ** Strings of digits *)
Lemma app_empty (b : string) : EmptyString +:+ b = b.
Proof. reflexivity. Qed.

Lemma app_String (c : ascii) (a b : string) :
  String c a +:+ b = String c (a +:+ b).
Proof. reflexivity. Qed.

Lemma String_length_app (a b : string) :
  String.length (a +:+ b) = (String.length a + String.length b)%nat.
Proof.
  induction a as [|c a IH]; [reflexivity|].
  rewrite app_String. cbn. now rewrite IH.
Qed.

Lemma allDigits_app (a b : string) :
  allDigits (a +:+ b) = allDigits a && allDigits b.
Proof.
  induction a as [|c a IH]; [reflexivity|].
  rewrite app_String. cbn. now rewrite IH, andb_assoc.
Qed.

Lemma app_assoc_string (a b c : string) : (a +:+ b) +:+ c = a +:+ (b +:+ c).
Proof.
  induction a as [|x a IH]; [reflexivity|].
  rewrite !app_String. now f_equal.
Qed.

Lemma digit_cases d :
  0 <= d <= 9 ->
  d = 0 \/ d = 1 \/ d = 2 \/ d = 3 \/ d = 4 \/ d = 5 \/ d = 6 \/ d = 7 \/
  d = 8 \/ d = 9.
Proof. lia. Qed.

Lemma digitChar_isDigit d : 0 <= d <= 9 -> isDigit (digitChar d) = true.
Proof.
  intros H.
  destruct (digit_cases d H)
    as [-> | [-> | [-> | [-> | [-> | [-> | [-> | [-> | [-> | ->]]]]]]]]];
    reflexivity.
Qed.

Lemma digitChar_nonzero d : 1 <= d <= 9 -> digitChar d <> "0"%char.
Proof.
  intros H. assert (H' : 0 <= d <= 9) by lia.
  destruct (digit_cases d H')
    as [-> | [-> | [-> | [-> | [-> | [-> | [-> | [-> | [-> | ->]]]]]]]]];
    try lia; discriminate.
Qed.

Lemma allDigits_zeros n : allDigits (zeros n) = true.
Proof. induction n; cbn; auto. Qed.

Lemma length_zeros n : String.length (zeros n) = n.
Proof. induction n; cbn; auto. Qed.

(** The digits of a number below [10^k] are at most [k], and at least
    one. *)
Lemma decimal_digits fuel : forall (k : nat) (u : Z),
  (1 <= k <= fuel)%nat -> 0 <= u < 10 ^ Z.of_nat k ->
  allDigits (decimal fuel u) = true /\
  (1 <= String.length (decimal fuel u) <= k)%nat.
Proof.
  induction fuel as [|fuel IH]; intros k u Hk Hu; [lia|].
  cbn [decimal]. destruct (Z.ltb_spec u 10) as [Hlt | Hge].
  - cbn. rewrite digitChar_isDigit by lia. split; [reflexivity | lia].
  - destruct k as [|[|k]]; [lia | cbn in Hu; lia |].
    assert (Hq : 0 <= u / 10 < 10 ^ Z.of_nat (S k)).
    { replace (Z.of_nat (S (S k))) with (Z.of_nat (S k) + 1) in Hu by lia.
      rewrite Z.pow_add_r, Z.pow_1_r in Hu by lia.
      split; [apply Z.div_pos; lia | apply Z.div_lt_upper_bound; lia]. }
    destruct (IH (S k) (u / 10)) as [Hd Hl]; [lia | exact Hq |].
    rewrite allDigits_app, String_length_app, Hd. cbn.
    rewrite digitChar_isDigit by (pose proof (Z.mod_pos_bound u 10); lia).
    split; [reflexivity | lia].
Qed.

(** A positive number is printed without a leading zero. *)
Lemma decimal_leading fuel : forall (k : nat) (u : Z),
  (1 <= k <= fuel)%nat -> 1 <= u < 10 ^ Z.of_nat k ->
  exists c r, decimal fuel u = String c r /\ c <> "0"%char.
Proof.
  induction fuel as [|fuel IH]; intros k u Hk Hu; [lia|].
  cbn [decimal]. destruct (Z.ltb_spec u 10) as [Hlt | Hge].
  - exists (digitChar u), EmptyString. split; [reflexivity|].
    apply digitChar_nonzero; lia.
  - destruct k as [|[|k]]; [lia | cbn in Hu; lia |].
    assert (Hq : 1 <= u / 10 < 10 ^ Z.of_nat (S k)).
    { replace (Z.of_nat (S (S k))) with (Z.of_nat (S k) + 1) in Hu by lia.
      rewrite Z.pow_add_r, Z.pow_1_r in Hu by lia.
      split; [apply Z.div_le_lower_bound; lia|].
      apply Z.div_lt_upper_bound; lia. }
    destruct (IH (S k) (u / 10)) as (c & r & E & Hc); [lia | exact Hq |].
    rewrite E. exists c, (r +:+ String (digitChar (u mod 10)) EmptyString).
    split; [reflexivity | exact Hc].
Qed.

Lemma appendInt_fixed (w : nat) (x : Z) :
  (1 <= w <= 20)%nat -> 0 <= x < 10 ^ Z.of_nat w ->
  fixedDigits w (appendInt x w).
Proof.
  intros Hw Hx. unfold appendInt, fixedDigits.
  destruct (Z.ltb_spec x 0) as [Hn | _]; [lia|].
  rewrite Z.abs_eq by lia.
  destruct (decimal_digits 20 w x) as [Hd Hl]; [lia | exact Hx |].
  rewrite app_empty, String_length_app, allDigits_app.
  rewrite length_zeros, allDigits_zeros, Hd.
  split; [lia | reflexivity].
Qed.

Lemma appendInt_plain (k : nat) (x : Z) :
  (1 <= k <= 20)%nat -> 1 <= x < 10 ^ Z.of_nat k ->
  plainDigits (appendInt x 0).
Proof.
  intros Hk Hx. unfold appendInt, plainDigits.
  destruct (Z.ltb_spec x 0) as [Hn | _]; [lia|].
  rewrite Z.abs_eq by lia.
  rewrite Nat.sub_0_l. cbn [zeros]. rewrite !app_empty.
  destruct (decimal_digits 20 k x) as [Hd _]; [lia | lia |].
  split; [exact Hd|]. apply (decimal_leading 20 k); lia.
Qed.

Lemma firstChars_fixed (n : nat) (s : string) :
  (n <= String.length s)%nat -> allDigits s = true ->
  fixedDigits n (firstChars n s).
Proof.
  unfold firstChars, fixedDigits. revert n.
  induction s as [|c s IH]; intros [|n] Hn Hd; cbn in *.
  - split; reflexivity.
  - lia.
  - split; reflexivity.
  - apply andb_true_iff in Hd as [Hc Hs].
    destruct (IH n) as [Hl Ha]; [lia | exact Hs |].
    rewrite Hc, Hl, Ha. split; reflexivity.
Qed.

Lemma appendNano_fixed (ns : Z) (n : nat) :
  (n <= 9)%nat -> 0 <= ns < 1000000000 ->
  exists f, appendNano ns n = "." +:+ f /\ fixedDigits n f.
Proof.
  intros Hn Hns. unfold appendNano. eexists; split; [reflexivity|].
  destruct (appendInt_fixed 9 ns) as [Hl Hd];
    [lia | change (10 ^ Z.of_nat 9) with 1000000000; lia |].
  apply firstChars_fixed; [lia | exact Hd].
Qed.

(** ** Fixed-width decimals *)
Lemma fixedDecimal_zero (w : nat) : fixedDecimal w 0 = zeros w.
Proof.
  induction w as [|w IH]; [reflexivity|].
  cbn [fixedDecimal]. change (0 / 10) with 0. change (0 mod 10) with 0.
  rewrite IH. clear IH. induction w as [|w IH]; [reflexivity|].
  cbn [zeros]. rewrite app_String. now f_equal.
Qed.

Lemma length_fixedDecimal (w : nat) (x : Z) :
  String.length (fixedDecimal w x) = w.
Proof.
  revert x. induction w as [|w IH]; intros x; [reflexivity|].
  cbn [fixedDecimal]. rewrite String_length_app, IH. cbn. lia.
Qed.

(** Padding the digits of a number below [10^w] to width [w] gives its
    [w] low digits. *)
Lemma pad_decimal (fuel : nat) : forall (w : nat) (u : Z),
  (1 <= w <= fuel)%nat -> 0 <= u < 10 ^ Z.of_nat w ->
  zeros (w - String.length (decimal fuel u)) +:+ decimal fuel u
  = fixedDecimal w u.
Proof.
  induction fuel as [|fuel IH]; intros w u Hw Hu; [lia|].
  destruct w as [|w]; [lia|].
  cbn [decimal fixedDecimal]. destruct (Z.ltb_spec u 10) as [Hlt | Hge].
  - cbn [String.length]. replace (S w - 1)%nat with w by lia.
    rewrite Z.div_small, Z.mod_small by lia.
    now rewrite fixedDecimal_zero.
  - destruct w as [|w]; [change (10 ^ Z.of_nat 1) with 10 in Hu; lia|].
    assert (Hq : 0 <= u / 10 < 10 ^ Z.of_nat (S w)).
    { replace (Z.of_nat (S (S w))) with (Z.of_nat (S w) + 1) in Hu by lia.
      rewrite Z.pow_add_r, Z.pow_1_r in Hu by lia.
      split; [apply Z.div_pos; lia | apply Z.div_lt_upper_bound; lia]. }
    rewrite String_length_app. cbn [String.length].
    replace (S (S w) - (String.length (decimal fuel (u / 10)) + 1))%nat
      with (S w - String.length (decimal fuel (u / 10)))%nat by lia.
    rewrite <- app_assoc_string.
    rewrite (IH (S w) (u / 10)); [reflexivity | lia | exact Hq].
Qed.

Lemma appendInt_fixedDecimal (w : nat) (x : Z) :
  (1 <= w <= 20)%nat -> 0 <= x < 10 ^ Z.of_nat w ->
  appendInt x w = fixedDecimal w x.
Proof.
  intros Hw Hx. unfold appendInt.
  destruct (Z.ltb_spec x 0) as [Hn | _]; [lia|].
  rewrite Z.abs_eq, app_empty by lia. now apply pad_decimal.
Qed.

Lemma firstChars_app (a b : string) :
  firstChars (String.length a) (a +:+ b) = a.
Proof.
  unfold firstChars. induction a as [|c a IH].
  - cbn. now destruct b.
  - rewrite app_String. cbn. now rewrite IH.
Qed.

(** The six digits kept of the nine are the microseconds. *)
Lemma frac_microseconds (ns : Z) :
  0 <= ns < 1000000000 ->
  firstChars 6 (appendInt ns 9) = appendInt (ns / 1000) 6.
Proof.
  intros Hns.
  rewrite (appendInt_fixedDecimal 9 ns)
    by (try lia; change (10 ^ Z.of_nat 9) with 1000000000; lia).
  rewrite (appendInt_fixedDecimal 6 (ns / 1000)).
  2: lia.
  2: { change (10 ^ Z.of_nat 6) with 1000000.
       split; [apply Z.div_pos; lia | apply Z.div_lt_upper_bound; lia]. }
  cbn [fixedDecimal].
  replace (ns / 10 / 10 / 10) with (ns / 1000)
    by (rewrite !Z.div_div by lia; reflexivity).
  rewrite !app_assoc_string.
  match goal with
  | |- firstChars 6 ?s = ?a =>
      assert (E : exists lo, s = a +:+ lo)
  end.
  { eexists. rewrite !app_assoc_string. reflexivity. }
  destruct E as [lo ->].
  match goal with
  | |- firstChars 6 (?a +:+ _) = _ =>
      replace 6%nat with (String.length a) at 1; [apply firstChars_app|]
  end.
  rewrite !String_length_app. reflexivity.
Qed.

(** ** Slice accesses *)
Lemma index_ok (st : Store) (i : Z) (gd : groupData) :
  0 <= i -> groups st !! Z.to_nat i = Some gd -> index i st = Ok gd st.
Proof.
  intros Hi Hl. unfold index.
  apply lookup_lt_Some in Hl as Hlt.
  destruct (Z.leb_spec 0 i); [|lia].
  destruct (Z.ltb_spec i (Z.of_nat (length (groups st)))); [|lia].
  cbn. now rewrite Hl.
Qed.

Lemma index_out_of_range (st : Store) (i : Z) :
  i < 0 \/ Z.of_nat (length (groups st)) <= i ->
  index i st = Panicked (IndexOutOfRange i (length (groups st))) st.
Proof.
  intros H. unfold index.
  destruct (Z.leb_spec 0 i); cbn; [|reflexivity].
  destruct (Z.ltb_spec i (Z.of_nat (length (groups st)))); [lia | reflexivity].
Qed.

Lemma setIndex_ok (st : Store) (i : Z) (old gd : groupData) :
  0 <= i -> groups st !! Z.to_nat i = Some old ->
  setIndex i gd st = Ok tt (setGroups (<[Z.to_nat i := gd]> (groups st)) st).
Proof.
  intros Hi Hl. unfold setIndex.
  apply lookup_lt_Some in Hl as Hlt.
  destruct (Z.leb_spec 0 i); [|lia].
  destruct (Z.ltb_spec i (Z.of_nat (length (groups st)))); [|lia].
  reflexivity.
Qed.

(** ** [printLog] on a registered group *)
Lemma printLog_default (st : Store) (g0 : groupData) (t : Time) (msg : string) :
  groups st !! 0%nat = Some g0 ->
  printLog 0 t msg st
  = Ok tt (addWrite (output g0)
             (Format (UTC t) logLayout +:+ " " +:+ msg +:+ newline) st).
Proof.
  intros Hl. unfold printLog, DefaultGroupId. rewrite Z.eqb_refl. unfold bind.
  rewrite (index_ok st 0 g0) by (try lia; exact Hl). reflexivity.
Qed.

Lemma printLog_named (st : Store) (g : Z) (gd : groupData) (t : Time)
    (msg : string) :
  0 < g -> groups st !! Z.to_nat g = Some gd ->
  printLog g t msg st
  = Ok tt (addWrite (output gd)
             (Format (UTC t) logLayout +:+ " [" +:+ name gd +:+ "] "
                +:+ msg +:+ newline) st).
Proof.
  intros Hg Hl. unfold printLog, DefaultGroupId.
  destruct (Z.eqb_spec g 0); [lia|]. unfold bind.
  rewrite (index_ok st g gd) by (try lia; exact Hl). 
  rewrite (index_ok st g gd) by (try lia; exact Hl). reflexivity.
Qed.

(** [printLog] writes exactly one line, on the writer of its group; the
    line depends on the group's index and name, on the time and on the
    message only. *)
Lemma printLog_writes (g : Z) (gd : groupData) (t : Time) (msg : string) :
  0 <= g ->
  exists line, forall st,
    groups st !! Z.to_nat g = Some gd ->
    printLog g t msg st = Ok tt (addWrite (output gd) line st).
Proof.
  intros Hg. destruct (Z.eq_dec g 0) as [-> | Hne].
  - eexists. intros st Hl. apply printLog_default. exact Hl.
  - eexists. intros st Hl. apply printLog_named; [lia | exact Hl].
Qed.

(** C1. Severity gating.  When the worker executes a trace-level command
    for a registered group, the line is written if and only if the global
    trace flag and the group's enabled flag are both true, and otherwise
    the command is dropped without any effect; when it executes an
    info-level command the line is written if and only if the group's
    enabled flag is true, whatever the value of the trace flag. *)
Theorem severity_gating (st : Store) (g : Z) (gd : groupData) (t : Time)
    (msg : string) :
  0 <= g -> groups st !! Z.to_nat g = Some gd ->
  exists line,
    printLog g t msg st = Ok tt (addWrite (output gd) line st) /\
    do_ (traceMsg g t msg) st
    = Ok tt (if traceEnabled st && enabled gd
             then addWrite (output gd) line st else st) /\
    do_ (infoMsg g t msg) st
    = Ok tt (if enabled gd then addWrite (output gd) line st else st) /\
    forall b,
      do_ (infoMsg g t msg) (setTraceEnabled b st)
      = Ok tt (setTraceEnabled b
                 (if enabled gd then addWrite (output gd) line st else st)).
Proof.
  intros Hg Hl.
  destruct (printLog_writes g gd t msg Hg) as [line Hp].
  exists line. split; [exact (Hp st Hl)|]. repeat split.
  - cbn [do_]. unfold traceMsg_do.
    destruct (traceEnabled st); [|reflexivity]. unfold bind.
    rewrite (index_ok st g gd Hg Hl).
    destruct (enabled gd); [exact (Hp st Hl) | reflexivity].
  - cbn [do_]. unfold infoMsg_do, bind.
    rewrite (index_ok st g gd Hg Hl).
    destruct (enabled gd); [exact (Hp st Hl) | reflexivity].
  - intros b. cbn [do_]. unfold infoMsg_do, bind.
    rewrite (index_ok (setTraceEnabled b st) g gd Hg Hl).
    destruct (enabled gd); [|reflexivity].
    rewrite (Hp (setTraceEnabled b st) Hl). reflexivity.
Qed.

(** ** The timestamp *)
Lemma app_empty_r (a : string) : a +:+ EmptyString = a.
Proof.
  induction a as [|c a IH]; [reflexivity|].
  rewrite app_String. now f_equal.
Qed.

Lemma Format_logLayout (t : Time) :
  Format t logLayout
  = appendInt (Year t) 4 +:+ "-" +:+ appendInt (Month t) 0 +:+ "-"
    +:+ appendInt (Day t) 0 +:+ " " +:+ appendInt (Hour t) 2 +:+ ":"
    +:+ appendInt (Minute t) 2 +:+ ":" +:+ appendInt (Second t) 2 +:+ "."
    +:+ firstChars 6 (appendInt (Nanosecond t) 9).
Proof.
  unfold logLayout. cbn [Format formatChunk]. unfold appendNano.
  rewrite app_empty_r, ?app_assoc_string. reflexivity.
Qed.

(** The rendering reads the instant only: the location of the captured
    time does not matter. *)
Lemma Format_UTC_location (t : Time) (offset : Z) :
  Format (UTC (mkTime (unixSec t) (nsec t) offset)) logLayout
  = Format (UTC t) logLayout.
Proof. reflexivity. Qed.

(** Closes a bound by a literal power of ten. *)
Ltac pow10 :=
  match goal with
  | |- context [10 ^ Z.of_nat ?n] =>
      let v := eval vm_compute in (10 ^ Z.of_nat n) in
      change (10 ^ Z.of_nat n) with v
  end; lia.

(** C5. Formatted line shape.  The line that [printLog] writes for the
    default group (index 0) is the timestamp, a space, the text and a
    newline, and for any other registered group the timestamp, the
    group's name in square brackets, the text and a newline.  The
    timestamp renders the captured instant at UTC as year, month, day,
    hour, minute, second and six fractional digits, which are the
    microseconds: the year in four digits (for years 0 to 9999), month
    and day without padding, hour, minute and second in two digits
    each. *)
Theorem printLog_line_shape (st : Store) (g : Z) (gd : groupData)
    (t : Time) (msg : string) :
  0 <= g -> groups st !! Z.to_nat g = Some gd ->
  validTime t -> 0 <= Year (UTC t) <= 9999 ->
  let u := UTC t in
  let yyyy := appendInt (Year u) 4 in
  let mo := appendInt (Month u) 0 in
  let dd := appendInt (Day u) 0 in
  let hh := appendInt (Hour u) 2 in
  let mi := appendInt (Minute u) 2 in
  let ss := appendInt (Second u) 2 in
  let ffffff := firstChars 6 (appendInt (Nanosecond u) 9) in
  let timestamp :=
    yyyy +:+ "-" +:+ mo +:+ "-" +:+ dd +:+ " "
      +:+ hh +:+ ":" +:+ mi +:+ ":" +:+ ss +:+ "." +:+ ffffff in
  wallSec u = unixSec t /\
  fixedDigits 4 yyyy /\ plainDigits mo /\ plainDigits dd /\
  fixedDigits 2 hh /\ fixedDigits 2 mi /\ fixedDigits 2 ss /\
  fixedDigits 6 ffffff /\ ffffff = appendInt (Nanosecond u / 1000) 6 /\
  printLog g t msg st
  = Ok tt (addWrite (output gd)
             (if g =? DefaultGroupId
              then timestamp +:+ " " +:+ msg +:+ newline
              else timestamp +:+ " [" +:+ name gd +:+ "] " +:+ msg +:+ newline)
             st).
Proof.
  intros Hg Hl Ht Hy. cbv zeta. set (u := UTC t) in *.
  split; [unfold wallSec, u, UTC; cbn; lia|].
  split; [apply appendInt_fixed; [lia | pow10]|].
  split.
  { apply (appendInt_plain 2); [lia|].
    pose proof (civilMonth_range (daysSinceEpoch u)). unfold Month. pow10. }
  split.
  { apply (appendInt_plain 2); [lia|].
    pose proof (civilDay_range (daysSinceEpoch u)). unfold Day. pow10. }
  split; [apply appendInt_fixed; [lia | pose proof (Hour_range u); pow10]|].
  split; [apply appendInt_fixed; [lia | pose proof (Minute_range u); pow10]|].
  split; [apply appendInt_fixed; [lia | pose proof (Second_range u); pow10]|].
  split.
  { destruct (appendInt_fixed 9 (Nanosecond u)) as [Hlen Hd];
      [lia | unfold Nanosecond, u, UTC, validTime in *; cbn [nsec]; pow10 |].
    apply firstChars_fixed; [lia | exact Hd]. }
  split; [apply frac_microseconds; exact Ht|].
  unfold DefaultGroupId. destruct (Z.eqb_spec g 0) as [-> | Hne].
  - rewrite (printLog_default st gd) by exact Hl.
    rewrite Format_logLayout, !app_assoc_string. reflexivity.
  - rewrite (printLog_named st g gd) by (lia || exact Hl).
    rewrite Format_logLayout, !app_assoc_string. reflexivity.
Qed.

(** ** The wire format *)
Lemma occurs_app (c : ascii) (a b : string) :
  occurs c (a +:+ b) = occurs c a || occurs c b.
Proof.
  induction a as [|x a IH]; [reflexivity|].
  rewrite app_String. cbn. now rewrite IH, orb_assoc.
Qed.

Lemma wireDefaultLine_bracket (timestamp message : string) :
  occurs "["%char (wireDefaultLine timestamp message) = true.
Proof.
  unfold wireDefaultLine. rewrite !occurs_app. cbn.
  now rewrite orb_true_r.
Qed.

(** C6, as stated, fails: the line written for the default group at the
    epoch with the text [Test info] contains no opening bracket, so it has
    the form [TIMESTAMP [ MESSAGE] for no timestamp and no message. *)
Lemma wire_default_counterexample :
  printLog DefaultGroupId (mkTime 0 0 0) "Test info" (store initial)
  = Ok tt (addWrite Stdout ("1970-1-1 00:00:00.000000 Test info" +:+ newline)
             (store initial))
  /\ ~ exists timestamp message,
         "1970-1-1 00:00:00.000000 Test info" +:+ newline
         = wireDefaultLine timestamp message.
Proof.
  split; [reflexivity|].
  intros (ts & m & E).
  pose proof (wireDefaultLine_bracket ts m) as Hb.
  rewrite <- E in Hb. vm_compute in Hb. discriminate.
Qed.

(** C6, amended.  Every line that the worker writes for the default group
    is [TIMESTAMP MESSAGE] followed by a newline, with nothing but one
    space between the timestamp and the text, and every line it writes
    for a named group is [TIMESTAMP [GROUPNAME] MESSAGE] followed by a
    newline; the line is appended to what the group's writer has
    received. *)
Theorem wire_line_format (st : Store) (g : Z) (gd : groupData) (t : Time)
    (msg : string) (c : logApi) :
  0 <= g -> groups st !! Z.to_nat g = Some gd -> enabled gd = true ->
  c = infoMsg g t msg \/ (c = traceMsg g t msg /\ traceEnabled st = true) ->
  let timestamp := Format (UTC t) logLayout in
  exists st',
    do_ c st = Ok tt st' /\
    sink (output gd) st'
    = (sink (output gd) st
         ++ [if g =? DefaultGroupId
             then timestamp +:+ " " +:+ msg +:+ newline
             else wireNamedLine timestamp (name gd) msg]).
Proof.
  intros Hg Hl Hen Hc timestamp.
  assert (Hp : printLog g t msg st
    = Ok tt (addWrite (output gd)
               (if g =? DefaultGroupId
                then timestamp +:+ " " +:+ msg +:+ newline
                else wireNamedLine timestamp (name gd) msg) st)).
  { unfold DefaultGroupId. destruct (Z.eqb_spec g 0) as [-> | Hne].
    - now apply printLog_default.
    - apply printLog_named; [lia | exact Hl]. }
  eexists. split.
  - destruct Hc as [-> | [-> Htr]]; cbn [do_].
    + unfold infoMsg_do, bind. rewrite (index_ok st g gd Hg Hl), Hen. exact Hp.
    + unfold traceMsg_do, bind. rewrite Htr, (index_ok st g gd Hg Hl), Hen.
      exact Hp.
  - unfold sink, addWrite. cbn [written].
    rewrite List.filter_app, map_app. cbn. rewrite Nat.eqb_refl. reflexivity.
Qed.

(** ** [SetDefaultOutput] *)

(** On a registry that has its first group, the call replaces that group
    by one of empty name, the given output and the same enabled flag. *)
Lemma SetDefaultOutput_cons (st : Store) (g0 : groupData)
    (others : list groupData) (out : Writer) :
  groups st = g0 :: others ->
  SetDefaultOutput out st
  = Ok tt (setGroups (defaultGroup out (enabled g0) :: others) st).
Proof.
  intros Hgs. unfold SetDefaultOutput, bind, lenGroups. rewrite Hgs.
  cbn [length]. destruct (Z.eqb_spec (Z.of_nat (S (length others))) 0); [lia|].
  rewrite (index_ok st 0 g0) by (try lia; rewrite Hgs; reflexivity).
  rewrite (setIndex_ok st 0 g0) by (try lia; rewrite Hgs; reflexivity).
  rewrite Hgs. reflexivity.
Qed.

(** On an empty registry the call creates the default group, enabled. *)
Lemma SetDefaultOutput_empty (st : Store) (out : Writer) :
  groups st = [] ->
  SetDefaultOutput out st = Ok tt (setGroups [defaultGroup out true] st).
Proof.
  intros Hgs. unfold SetDefaultOutput, bind, lenGroups, appendGroup.
  rewrite Hgs. cbn [length]. change (Z.of_nat 0 =? 0) with true.
  cbv beta iota. rewrite Hgs. reflexivity.
Qed.

(** [SetDefaultOutput] never panics. *)
Lemma SetDefaultOutput_returns (st : Store) (out : Writer) :
  exists st', SetDefaultOutput out st = Ok tt st'.
Proof.
  destruct (groups st) as [|g0 others] eqn:Hgs.
  - eexists. now apply SetDefaultOutput_empty.
  - eexists. now apply (SetDefaultOutput_cons st g0 others).
Qed.

(** C8. Frame property of [SetDefaultOutput].  Whenever the default group
    exists (the registry starts with a group of empty name), the call
    returns normally and replaces the output of that group only: the
    default group keeps its empty name and its enabled flag, every other
    group keeps its name, output and enabled flag, whether there are such
    groups or not, and the trace flag and the writers' contents stay as
    they were. *)
Theorem SetDefaultOutput_frame (st : Store) (g0 : groupData)
    (others : list groupData) (out : Writer) :
  groups st = g0 :: others -> name g0 = EmptyString ->
  exists st',
    SetDefaultOutput out st = Ok tt st' /\
    groups st'
    = {| name := name g0; output := out; enabled := enabled g0 |} :: others /\
    (forall i : nat, (1 <= i)%nat -> groups st' !! i = groups st !! i) /\
    length (groups st') = length (groups st) /\
    traceEnabled st' = traceEnabled st /\
    written st' = written st.
Proof.
  intros Hgs Hname. eexists. split.
  - apply (SetDefaultOutput_cons st g0 others out Hgs).
  - cbn [groups setGroups traceEnabled written]. rewrite Hname, Hgs.
    repeat split. intros [|i] Hi; [lia | reflexivity].
Qed.

(** ** Group indices that are out of range *)

(** C9, as stated, fails: right after initialisation the trace flag is
    off, and a trace-level command for group 7, which does not exist, is
    executed without a panic and without any effect. *)
Lemma unvalidated_index_counterexample :
  (Z.of_nat (length (groups (store initial))) <= 7) /\
  do_ (traceMsg 7 (mkTime 0 0 0) "x") (store initial) = Ok tt (store initial).
Proof. split; [cbn; lia | reflexivity]. Qed.

(** C9, amended.  No public function checks the group index: a call
    sends its command whatever the index is.  When the worker executes an
    info-level or an enable-group command whose index is negative or not
    below the number of groups, the unguarded access to the registry
    panics with an index-out-of-range error and changes nothing; a
    trace-level command with such an index panics in the same way when
    the trace flag is on, and is dropped without effect when it is off,
    because the flag is tested first. *)
Theorem unvalidated_index (st : Store) (g : Z) (t : Time) (msg : string)
    (on : bool) (s : Sys) :
  g < 0 \/ Z.of_nat (length (groups st)) <= g ->
  let oops := Panicked (IndexOutOfRange g (length (groups st))) st in
  do_ (infoMsg g t msg) st = oops /\
  do_ (cmdEnableGroup g on) st = oops /\
  do_ (traceMsg g t msg) st = (if traceEnabled st then oops else Ok tt st) /\
  EnableGroup g on s = send (cmdEnableGroup g on) s /\
  (forall (F : Fmt) (a : list Arg) (now : Time),
     Infog g a now s = send (infoMsg g now (Sprint a)) s /\
     Traceg g a now s = send (traceMsg g now (Sprint a)) s) /\
  (closed s = false -> (length (logstream s) < chanBufSize)%nat ->
   forall c, exists s', send c s = Next s' /\
     logstream s' = logstream s ++ [c] /\ store s' = store s).
Proof.
  intros Hg oops. subst oops.
  pose proof (index_out_of_range st g Hg) as Hi.
  repeat split.
  - cbn [do_]. unfold infoMsg_do, bind. now rewrite Hi.
  - cbn [do_]. unfold cmdEnableGroup_do, bind. now rewrite Hi.
  - cbn [do_]. unfold traceMsg_do, bind.
    destruct (traceEnabled st); [now rewrite Hi | reflexivity].
  - intros Hc Hlen c. unfold send. rewrite Hc.
    destruct (Nat.ltb_spec (length (logstream s)) chanBufSize); [|lia].
    eexists. repeat split.
Qed.

(** ** [RegisterGroup] *)
Lemma checkName_taken (nm : string) (gs : list groupData) (st : Store) :
  In nm (map name gs) ->
  checkName nm gs st = Panicked (PanicValue "Group name already exists") st.
Proof.
  induction gs as [|group rest IH]; intros Hin; [destruct Hin|].
  cbn [checkName]. destruct (String.eqb_spec nm (name group)) as [E | Hne].
  - reflexivity.
  - apply IH. destruct Hin as [E | Hin]; [congruence | exact Hin].
Qed.

Lemma checkName_fresh (nm : string) (gs : list groupData) (st : Store) :
  ~ In nm (map name gs) -> checkName nm gs st = Ok tt st.
Proof.
  induction gs as [|group rest IH]; intros Hin; [reflexivity|].
  cbn [checkName]. destruct (String.eqb_spec nm (name group)) as [E | Hne].
  - exfalso. apply Hin. left. now symmetry.
  - apply IH. intros H. apply Hin. now right.
Qed.

Lemma RegisterGroup_taken (st : Store) (nm : string) (out : Writer)
    (on : bool) :
  In nm (map name (groups st)) ->
  RegisterGroup nm out on st
  = Panicked (PanicValue "Group name already exists") st.
Proof.
  intros Hin. unfold RegisterGroup, bind.
  now rewrite (checkName_taken nm (groups st) st Hin).
Qed.

Lemma RegisterGroup_fresh (st : Store) (nm : string) (out : Writer)
    (on : bool) :
  groups st <> [] -> ~ In nm (map name (groups st)) ->
  RegisterGroup nm out on st
  = Ok (Z.of_nat (length (groups st)))
       (setGroups (groups st ++ [{| name := nm; output := out; enabled := on |}])
          st).
Proof.
  intros Hne Hin. unfold RegisterGroup, bind.
  rewrite (checkName_fresh nm (groups st) st Hin).
  unfold lenGroups at 1.
  destruct (Z.eqb_spec (Z.of_nat (length (groups st))) 0) as [E | _].
  { destruct (groups st); [congruence | cbn in E; lia]. }
  unfold ret, appendGroup, lenGroups. cbn [groups setGroups].
  rewrite length_app. cbn [length]. f_equal. lia.
Qed.

(** C4. Registering a duplicate name is fatal and leaves the registry
    alone.  [RegisterGroup] panics whenever the name is that of a group
    already registered; the name of the default group is the empty
    string, so registering the empty string again panics as well.  The
    panic leaves the variables exactly as they were, and a later
    registration with a name not yet in use returns normally, appends the
    group and returns the next index. *)
Theorem RegisterGroup_duplicate (st : Store) (nm : string) (out : Writer)
    (on : bool) (nm' : string) (out' : Writer) (on' : bool) :
  In nm (map name (groups st)) ->
  ~ In nm' (map name (groups st)) ->
  let failed := RegisterGroup nm out on st in
  failed = Panicked (PanicValue "Group name already exists") st /\
  (forall g0, groups st !! 0%nat = Some g0 -> name g0 = EmptyString ->
   RegisterGroup EmptyString out on st
   = Panicked (PanicValue "Group name already exists") st) /\
  storeOf failed = st /\
  RegisterGroup nm' out' on' (storeOf failed)
  = Ok (Z.of_nat (length (groups st)))
       (setGroups
          (groups st ++ [{| name := nm'; output := out'; enabled := on' |}])
          st).
Proof.
  intros Hin Hfresh failed. subst failed.
  rewrite (RegisterGroup_taken st nm out on Hin). cbn [storeOf].
  repeat split.
  - intros g0 H0 Hname. apply RegisterGroup_taken.
    apply list_elem_of_lookup_2 in H0. apply list_elem_of_In in H0.
    apply (in_map name) in H0. now rewrite Hname in H0.
  - apply RegisterGroup_fresh; [|exact Hfresh].
    intros E. rewrite E in Hin. destruct Hin.
Qed.

(** ** Message text *)

(** C10. Empty-template fallback.  A template-taking log function called
    with the empty template builds its text with [Sprint] from the
    arguments, not with [Sprintf], and so behaves exactly as the function
    without template called with the same arguments; with a template of
    at least one character the text comes from [Sprintf]. *)
Theorem empty_template_fallback (F : Fmt) (g : Z) (a : list Arg)
    (now : Time) (s : Sys) :
  Infof EmptyString a now s = Info a now s /\
  Tracef EmptyString a now s = Trace a now s /\
  Infogf g EmptyString a now s = Infog g a now s /\
  Tracegf g EmptyString a now s = Traceg g a now s /\
  Infogf g EmptyString a now s = send (infoMsg g now (Sprint a)) s /\
  Tracegf g EmptyString a now s = send (traceMsg g now (Sprint a)) s /\
  forall ch rest,
    Infogf g (String ch rest) a now s
    = send (infoMsg g now (Sprintf (String ch rest) a)) s /\
    Tracegf g (String ch rest) a now s
    = send (traceMsg g now (Sprintf (String ch rest) a)) s.
Proof. repeat split. Qed.

(** ** Executions *)
Lemma run_app (l1 l2 : list label) (s : Sys) :
  run (l1 ++ l2) s
  = match run l1 s with
    | Next s' => run l2 s'
    | o => o
    end.
Proof.
  revert s. induction l1 as [|l l1 IH]; intros s; [reflexivity|].
  cbn [app run]. destruct (step l s); auto.
Qed.

Lemma sends_app (l1 l2 : list label) : sends (l1 ++ l2) = sends l1 ++ sends l2.
Proof.
  induction l1 as [|l l1 IH]; [reflexivity|].
  destruct l; cbn [app sends]; now rewrite ?IH.
Qed.

Lemma protocol_reset (st : Store) : protocol [] (reset st).
Proof. split; cbn; intros; try discriminate; auto. Qed.

(** Closes the side conditions of the invariant: use the hypotheses
    whose premise holds, then conclude by equalities and arithmetic. *)
Ltac protocol_side :=
  try assumption;
  intros;
  repeat match goal with
         | H : ?a = ?a -> _ |- _ => specialize (H eq_refl)
         | H : ?x = _ -> _, E : ?x = _ |- _ => specialize (H E)
         | H : _ /\ _ |- _ => destruct H
         end;
  repeat split; try congruence; try lia.

(** Every completed action keeps the invariant. *)
Lemma protocol_step (cs : list logApi) (l : label) (s s' : Sys) :
  protocol cs s -> step l s = Next s' -> protocol (cs ++ sends [l]) s'.
Proof.
  intros [Hh Hr He Hd Ho Hcl] Hstep. destruct l; cbn [step sends] in *;
    rewrite ?app_nil_r.
  - (* a send *)
    unfold send in Hstep. destruct (closed s) eqn:Hc; [discriminate|].
    destruct (length (logstream s) <? chanBufSize)%nat; [|discriminate].
    injection Hstep as <-. split; cbn.
    + now rewrite app_assoc, Hh.
    + protocol_side.
    + protocol_side.
    + protocol_side.
    + protocol_side.
    + protocol_side.
  - (* RegisterGroup *)
    unfold direct in Hstep.
    destruct (RegisterGroup nm out on (store s)); [|discriminate].
    injection Hstep as <-. split; cbn; auto.
  - (* SetDefaultOutput *)
    unfold direct in Hstep.
    destruct (SetDefaultOutput out (store s)); [|discriminate].
    injection Hstep as <-. split; cbn; auto.
  - (* the worker *)
    unfold logRoutine in Hstep.
    destruct (worker s) eqn:Hw; [|discriminate].
    destruct (logstream s) as [|i rest] eqn:Hq.
    + destruct (closed s) eqn:Hc; [|discriminate].
      injection Hstep as <-. split; cbn.
      * exact Hh.
      * protocol_side.
      * protocol_side.
      * protocol_side.
      * protocol_side.
      * protocol_side.
    + destruct (do_ i (store s)); [|discriminate].
      injection Hstep as <-. split; cbn.
      * now rewrite <- app_assoc.
      * protocol_side.
      * protocol_side.
      * protocol_side.
      * protocol_side.
      * protocol_side.
  - (* close *)
    unfold Done_close in Hstep.
    destruct (closed s) eqn:Hc; [discriminate|].
    injection Hstep as <-. split; cbn.
    + exact Hh.
    + protocol_side.
    + protocol_side.
    + protocol_side.
    + protocol_side.
    + protocol_side.
  - (* the return from the wait *)
    unfold Done_wait in Hstep.
    destruct (doneCall s) eqn:Hdc; try discriminate.
    destruct (Z.eqb_spec (waitGroup s) 0) as [Hz|]; [|discriminate].
    injection Hstep as <-. split; cbn.
    + exact Hh.
    + protocol_side.
    + protocol_side.
    + intros _. destruct (worker s) eqn:Hw; [|reflexivity]. protocol_side.
    + protocol_side.
    + intros _. apply Hcl. congruence.
Qed.

Lemma protocol_run (ls : list label) : forall (cs : list logApi) (s s' : Sys),
  protocol cs s -> run ls s = Next s' -> protocol (cs ++ sends ls) s'.
Proof.
  induction ls as [|l ls IH]; intros cs s s' Hp Hrun.
  - cbn in *. injection Hrun as <-. now rewrite app_nil_r.
  - cbn [run] in Hrun. destruct (step l s) as [s1| |] eqn:Hstep; try discriminate.
    change (l :: ls) with ([l] ++ ls). rewrite sends_app, app_assoc.
    apply (IH _ s1); [|exact Hrun]. now apply (protocol_step cs l s).
Qed.

(** ** The drain *)
Lemma doAll_app (c1 c2 : list logApi) (st : Store) :
  doAll (c1 ++ c2) st
  = match doAll c1 st with
    | Ok _ st' => doAll c2 st'
    | Panicked p st' => Panicked p st'
    end.
Proof.
  revert st. induction c1 as [|c c1 IH]; intros st; [reflexivity|].
  cbn [app doAll]. unfold bind. destruct (do_ c st); [apply IH | reflexivity].
Qed.

(** Given the processor, the worker empties the channel, provided no
    command panics. *)
Lemma worker_drains (cs : list logApi) : forall (s : Sys) (st' : Store),
  worker s = Running -> logstream s = cs ->
  doAll cs (store s) = Ok tt st' ->
  run (repeat WorkerTurn (length cs)) s
  = Next {| store := st'; logstream := []; closed := closed s;
            waitGroup := waitGroup s; worker := Running;
            doneCall := doneCall s; handled := handled s ++ cs |}.
Proof.
  induction cs as [|c cs IH]; intros s st' Hw Hq Hdo.
  - cbn in *. injection Hdo as <-. rewrite app_nil_r.
    destruct s; cbn in *; subst; reflexivity.
  - cbn [length repeat run step]. unfold logRoutine. rewrite Hw, Hq.
    cbn [doAll] in Hdo. unfold bind in Hdo.
    destruct (do_ c (store s)) as [[] st1 | p st1]; [|discriminate].
    rewrite (IH _ st'); cbn; auto.
    now rewrite <- app_assoc.
Qed.

(** From a state in which [Done] has not been called, [Done] runs to its
    end as soon as the pending commands execute without panic. *)
Lemma Done_returns (cs : list logApi) (s : Sys) (st' : Store) :
  protocol cs s -> doneCall s = NotCalled ->
  doAll (logstream s) (store s) = Ok tt st' ->
  Done s
  = Next {| store := st'; logstream := []; closed := true; waitGroup := 0;
            worker := Exited; doneCall := Returned; handled := cs |}.
Proof.
  intros [Hh Hr He Hd Ho Hcl] Hn Hdo.
  assert (Hc : closed s = false) by auto.
  assert (Hw : worker s = Running).
  { destruct (worker s); [reflexivity|].
    destruct (He eq_refl) as (_ & Hc' & _). congruence. }
  unfold Done, Done_schedule. cbn [run step]. unfold Done_close. rewrite Hc.
  rewrite run_app.
  erewrite worker_drains; cbn; eauto.
  rewrite (Hr Hw), Hh. reflexivity.
Qed.

(** The variables follow the actions: at every point of an execution the
    store is the result of running, one after the other from the store
    at the start, the actions that the execution has run so far, and the
    commands among them are the ones the worker has recorded. *)
Lemma replay_run (ls : list label) : forall s0 s : Sys,
  run ls s0 = Next s ->
  performAll (replay ls (logstream s0)) (store s0) = Ok tt (store s) /\
  handled s = handled s0 ++ commandsOf (replay ls (logstream s0)).
Proof.
  induction ls as [|l ls IH]; intros s0 s Hrun; cbn [run] in Hrun.
  - injection Hrun as <-. cbn. now rewrite app_nil_r.
  - destruct (step l s0) as [s1| |] eqn:Hstep; try discriminate.
    destruct (IH s1 s Hrun) as [Hstore Hhist]. clear IH Hrun.
    destruct l; cbn [step replay] in *.
    + unfold send in Hstep. destruct (closed s0); [discriminate|].
      destruct (length (logstream s0) <? chanBufSize)%nat; [|discriminate].
      injection Hstep as <-. cbn [store logstream handled] in *. auto.
    + unfold direct in Hstep.
      destruct (RegisterGroup nm out on (store s0)) as [id st1|] eqn:Hreg;
        [|discriminate].
      injection Hstep as <-. cbn [store logstream handled withStore] in *.
      cbn [performAll perform commandsOf]. unfold bind at 1 2.
      rewrite Hreg. unfold ret at 1. auto.
    + unfold direct in Hstep.
      destruct (SetDefaultOutput out (store s0)) as [[] st1|] eqn:Hset;
        [|discriminate].
      injection Hstep as <-. cbn [store logstream handled withStore] in *.
      cbn [performAll perform commandsOf]. unfold bind at 1.
      rewrite Hset. auto.
    + unfold logRoutine in Hstep. destruct (worker s0); [|discriminate].
      destruct (logstream s0) as [|i rest].
      * destruct (closed s0); [|discriminate]. injection Hstep as <-.
        cbn [store logstream handled] in *. auto.
      * destruct (do_ i (store s0)) as [[] st1|] eqn:Hdo; [|discriminate].
        injection Hstep as <-. cbn [store logstream handled] in *.
        cbn [performAll perform commandsOf]. unfold bind at 1.
        rewrite Hdo. split; [exact Hstore|].
        now rewrite Hhist, <- app_assoc.
    + unfold Done_close in Hstep. destruct (closed s0); [discriminate|].
      injection Hstep as <-. cbn [store logstream handled] in *. auto.
    + unfold Done_wait in Hstep. destruct (doneCall s0); try discriminate.
      destruct (waitGroup s0 =? 0); [|discriminate].
      injection Hstep as <-. cbn [store logstream handled] in *. auto.
Qed.

(** C2. Drain completeness.  In every execution of the package from its
    start, once [Done] has returned the channel is empty, the worker has
    left its loop, and every command that was sent has been executed:
    the [do] of each command sent has run, once and in the order of
    sending, and the variables and the writers are exactly what running
    these [do]s (and the calls of [RegisterGroup] and [SetDefaultOutput]
    made meanwhile) leave behind, none of them having panicked.  Nothing
    can be sent once [Done] has been called.  And [Done] does return:
    from every state reached before it is called it runs to its end,
    with the pending commands executed on the variables, provided they
    execute without panic. *)
Theorem Done_drains (st0 : Store) (ls : list label) (s : Sys) :
  run ls (reset st0) = Next s ->
  (doneCall s = Returned ->
   logstream s = [] /\ handled s = sends ls /\ worker s = Exited /\
   commandsOf (replay ls []) = sends ls /\
   performAll (replay ls []) (store (reset st0)) = Ok tt (store s)) /\
  (doneCall s <> NotCalled ->
   forall c, send c s = Crash SendOnClosedChannel s) /\
  (doneCall s = NotCalled ->
   forall st', doAll (logstream s) (store s) = Ok tt st' ->
   exists s',
     Done s = Next s' /\ doneCall s' = Returned /\ store s' = st' /\
     logstream s' = [] /\ handled s' = sends ls).
Proof.
  intros Hrun.
  pose proof (protocol_run ls [] (reset st0) s (protocol_reset st0) Hrun)
    as Hp.
  cbn [app] in Hp. split; [|split].
  - intros Hret. destruct Hp as [Hh Hr He Hd Ho Hcl].
    destruct (He (Hd Hret)) as (_ & _ & Hq).
    rewrite Hq, app_nil_r in Hh.
    destruct (replay_run ls (reset st0) s Hrun) as [Hstore Hhist].
    change (logstream (reset st0)) with (@nil logApi) in *.
    change (handled (reset st0)) with (@nil logApi) in Hhist.
    cbn [app] in Hhist.
    repeat split; auto. congruence.
  - intros Hcalled c. unfold send.
    now rewrite (proto_closed _ _ Hp Hcalled).
  - intros Hn st' Hdo. eexists. split.
    + apply (Done_returns (sends ls)); eassumption.
    + cbn. auto.
Qed.

(** ** Order of the lines *)



(** While only the channel protocol runs, the variables change through
    the worker alone: the store is the result of executing, in order and
    from the store at the start, the commands completed since. *)
Lemma channel_run (ls : list label) : forall s s' : Sys,
  forallb viaChannel ls = true -> run ls s = Next s' ->
  exists hs, handled s' = handled s ++ hs /\
             doAll hs (store s) = Ok tt (store s').
Proof.
  induction ls as [|l ls IH]; intros s s' Hvia Hrun.
  - cbn in Hrun. injection Hrun as <-. exists []. split.
    + now rewrite app_nil_r.
    + reflexivity.
  - cbn [forallb] in Hvia. apply andb_true_iff in Hvia as [Hl Hvia].
    cbn [run] in Hrun.
    destruct (step l s) as [s1 | |] eqn:Hstep; try discriminate.
    destruct (IH s1 s' Hvia Hrun) as (hs & Hh & Hdo).
    assert (Hone : exists h1, handled s1 = handled s ++ h1 /\
                              doAll h1 (store s) = Ok tt (store s1)).
    { destruct l; cbn [step viaChannel] in *; try discriminate.
      - unfold send in Hstep. destruct (closed s); [discriminate|].
        destruct (length (logstream s) <? chanBufSize)%nat; [|discriminate].
        injection Hstep as <-. exists []. cbn. now rewrite app_nil_r.
      - unfold logRoutine in Hstep. destruct (worker s); [|discriminate].
        destruct (logstream s) as [|i rest].
        + destruct (closed s); [|discriminate].
          injection Hstep as <-. exists []. cbn. now rewrite app_nil_r.
        + destruct (do_ i (store s)) as [[] st1 | ] eqn:Hdo1; [|discriminate].
          injection Hstep as <-. exists [i]. cbn [handled store doAll].
          unfold bind. now rewrite Hdo1.
      - unfold Done_close in Hstep. destruct (closed s); [discriminate|].
        injection Hstep as <-. exists []. cbn. now rewrite app_nil_r.
      - unfold Done_wait in Hstep. destruct (doneCall s); try discriminate.
        destruct (waitGroup s =? 0); [|discriminate].
        injection Hstep as <-. exists []. cbn. now rewrite app_nil_r. }
    destruct Hone as (h1 & Hh1 & Hdo1).
    exists (h1 ++ hs). split.
    + now rewrite Hh, Hh1, app_assoc.
    + now rewrite doAll_app, Hdo1.
Qed.


(** ** Who changes the variables *)

(** C7, as stated, fails: a call of [RegisterGroup] right after
    initialisation changes the registry at once, in the caller, and puts
    nothing on the channel. *)
Lemma direct_mutation_counterexample :
  exists s',
    step (CallRegisterGroup "audit" 1%nat true) initial = Next s' /\
    groups (store s') <> groups (store initial) /\
    logstream s' = logstream initial /\
    logstream s' = [].
Proof.
  eexists. split; [reflexivity|]. cbn. repeat split. discriminate.
Qed.

Lemma checkName_store (nm : string) (gs : list groupData) (st : Store) :
  storeOf (checkName nm gs st) = st.
Proof.
  induction gs as [|group rest IH]; [reflexivity|].
  cbn [checkName]. destruct (String.eqb nm (name group)); [reflexivity | exact IH].
Qed.

(** A successful [RegisterGroup] appends to the registry and touches
    nothing else. *)
Lemma RegisterGroup_appends (nm : string) (out : Writer) (on : bool)
    (st st' : Store) (n : Z) :
  RegisterGroup nm out on st = Ok n st' ->
  traceEnabled st' = traceEnabled st /\ written st' = written st /\
  exists extra, groups st' = groups st ++ extra.
Proof.
  unfold RegisterGroup, bind. intros H.
  pose proof (checkName_store nm (groups st) st) as Hs.
  destruct (checkName nm (groups st) st) as [[] st1 | ]; [|discriminate].
  cbn in Hs. subst st1. unfold lenGroups at 1 in H.
  destruct (Z.of_nat (length (groups st)) =? 0); cbn in H;
    injection H as _ <-; cbn; repeat split; eexists;
    rewrite <- ?app_assoc; reflexivity.
Qed.

(** A successful [SetDefaultOutput] keeps the enabled flag of every
    registered group, the trace flag and the writers' contents. *)
Lemma SetDefaultOutput_keeps (out : Writer) (st st' : Store) :
  SetDefaultOutput out st = Ok tt st' ->
  traceEnabled st' = traceEnabled st /\ written st' = written st /\
  forall (i : nat) gd, groups st !! i = Some gd ->
    exists gd', groups st' !! i = Some gd' /\ enabled gd' = enabled gd.
Proof.
  intros H. destruct (groups st) as [|g0 others] eqn:Hgs.
  - rewrite (SetDefaultOutput_empty st out Hgs) in H. injection H as <-.
    cbn. repeat split. intros i gd Hi. discriminate.
  - rewrite (SetDefaultOutput_cons st g0 others out Hgs) in H.
    injection H as <-. cbn. repeat split.
    intros [|i] gd Hi; cbn in *.
    + injection Hi as <-. eexists. split; reflexivity.
    + exists gd. split; [exact Hi | reflexivity].
Qed.

(** C7, amended.  The trace flag and the enabled flags of the registered
    groups are changed by the worker alone, while it executes a command
    taken from the channel: no other action changes them or writes a
    line.  [EnableGroup], [EnableTrace] and the log functions only send a
    command, leaving the variables as they are.  [RegisterGroup] and
    [SetDefaultOutput] do not use the channel: they change the registry
    in the caller and leave the channel and the worker's record alone. *)
Theorem worker_only_flags (l : label) (s s' : Sys) :
  step l s = Next s' ->
  (l <> WorkerTurn ->
   traceEnabled (store s') = traceEnabled (store s) /\
   written (store s') = written (store s) /\
   forall (i : nat) gd, groups (store s) !! i = Some gd ->
     exists gd', groups (store s') !! i = Some gd' /\
                 enabled gd' = enabled gd) /\
  (forall c, l = Send c ->
     store s' = store s /\ logstream s' = logstream s ++ [c]) /\
  (viaChannel l = false ->
     logstream s' = logstream s /\ handled s' = handled s) /\
  (forall g on, EnableGroup g on s = step (Send (cmdEnableGroup g on)) s) /\
  (forall on, EnableTrace on s = step (Send (cmdEnabletrace on)) s) /\
  (forall (F : Fmt) g lv format (a : list Arg) now,
     log g lv format a now s
     = step (Send (logCommand g lv format a now)) s).
Proof.
  intros Hstep.
  assert (Hsame : store s' = store s ->
            traceEnabled (store s') = traceEnabled (store s) /\
            written (store s') = written (store s) /\
            forall (i : nat) gd, groups (store s) !! i = Some gd ->
              exists gd', groups (store s') !! i = Some gd' /\
                          enabled gd' = enabled gd).
  { intros ->. repeat split. intros i gd Hi. exists gd. auto. }
  destruct l; cbn [step viaChannel] in *;
    (split; [|split; [|split; [|repeat split]]]).
  - (* a send *)
    intros _. apply Hsame. unfold send in Hstep.
    destruct (closed s); [discriminate|].
    destruct (length (logstream s) <? chanBufSize)%nat; [|discriminate].
    now injection Hstep as <-.
  - intros c0 E. injection E as <-. unfold send in Hstep.
    destruct (closed s); [discriminate|].
    destruct (length (logstream s) <? chanBufSize)%nat; [|discriminate].
    injection Hstep as <-. split; reflexivity.
  - discriminate.
  - (* RegisterGroup *)
    intros _. unfold direct in Hstep.
    destruct (RegisterGroup nm out on (store s)) as [n st1|] eqn:Hreg;
      [|discriminate].
    injection Hstep as <-. cbn [store withStore].
    destruct (RegisterGroup_appends _ _ _ _ _ _ Hreg) as (Ht & Hw & extra & Hg).
    repeat split; auto.
    intros i gd Hi. exists gd. split; [|reflexivity].
    rewrite Hg. now apply lookup_app_l_Some.
  - discriminate.
  - intros _. unfold direct in Hstep.
    destruct (RegisterGroup nm out on (store s)); [|discriminate].
    injection Hstep as <-. split; reflexivity.
  - (* SetDefaultOutput *)
    intros _. unfold direct in Hstep.
    destruct (SetDefaultOutput out (store s)) as [[] st1|] eqn:Hset;
      [|discriminate].
    injection Hstep as <-. cbn [store withStore].
    exact (SetDefaultOutput_keeps _ _ _ Hset).
  - discriminate.
  - intros _. unfold direct in Hstep.
    destruct (SetDefaultOutput out (store s)); [|discriminate].
    injection Hstep as <-. split; reflexivity.
  - (* the worker *)
    intros H. now destruct H.
  - discriminate.
  - discriminate.
  - (* close *)
    intros _. apply Hsame. unfold Done_close in Hstep.
    destruct (closed s); [discriminate|]. now injection Hstep as <-.
  - discriminate.
  - discriminate.
  - (* the return from the wait *)
    intros _. apply Hsame. unfold Done_wait in Hstep.
    destruct (doneCall s); try discriminate.
    destruct (waitGroup s =? 0); [|discriminate]. now injection Hstep as <-.
  - discriminate.
  - discriminate.
Qed.

(** ** The default group stays in place *)
Lemma index_inv (i : Z) (st st' : Store) (gd : groupData) :
  index i st = Ok gd st' ->
  st' = st /\ 0 <= i /\ groups st !! Z.to_nat i = Some gd.
Proof.
  unfold index. destruct (Z.leb_spec 0 i); cbn [andb]; [|discriminate].
  destruct (i <? Z.of_nat (length (groups st))); [|discriminate].
  destruct (groups st !! Z.to_nat i) eqn:Hl; [|discriminate].
  intros E. injection E as <- <-. auto.
Qed.

Lemma printLog_groups (g : Z) (t : Time) (msg : string) (st st' : Store)
    (u : unit) :
  printLog g t msg st = Ok u st' ->
  groups st' = groups st /\ traceEnabled st' = traceEnabled st.
Proof.
  destruct u. unfold printLog, bind, Fprintf.
  destruct (g =? DefaultGroupId).
  - destruct (index DefaultGroupId st) as [g0 st1|] eqn:Hi; [|discriminate].
    apply index_inv in Hi as (-> & _). intros [= <-]. split; reflexivity.
  - destruct (index g st) as [g1 st1|] eqn:Hi; [|discriminate].
    apply index_inv in Hi as (-> & _).
    destruct (index g st) as [g2 st2|] eqn:Hi2; [|discriminate].
    apply index_inv in Hi2 as (-> & _). intros [= <-]. split; reflexivity.
Qed.

Lemma do_hasDefault (c : logApi) (st st' : Store) (u : unit) :
  hasDefault st -> do_ c st = Ok u st' -> hasDefault st'.
Proof.
  intros (g0 & others & Hgs & Hname) Hdo. destruct u.
  assert (Hsame : groups st' = groups st -> hasDefault st').
  { intros E. exists g0, others. now rewrite E. }
  destruct c as [g t m | g t m | on | g on |]; cbn [do_] in Hdo.
  - unfold traceMsg_do, bind, ret in Hdo.
    destruct (traceEnabled st); [|injection Hdo as <-; auto].
    destruct (index g st) as [gd st1|] eqn:Hi; [|discriminate].
    apply index_inv in Hi as (-> & _).
    destruct (enabled gd); [|injection Hdo as <-; auto].
    apply Hsame. now apply printLog_groups in Hdo.
  - unfold infoMsg_do, bind, ret in Hdo.
    destruct (index g st) as [gd st1|] eqn:Hi; [|discriminate].
    apply index_inv in Hi as (-> & _).
    destruct (enabled gd); [|injection Hdo as <-; auto].
    apply Hsame. now apply printLog_groups in Hdo.
  - unfold cmdEnabletrace_do in Hdo. injection Hdo as <-. now apply Hsame.
  - unfold cmdEnableGroup_do, bind in Hdo.
    destruct (index g st) as [gd st1|] eqn:Hi; [|discriminate].
    apply index_inv in Hi as (-> & Hpos & Hl).
    rewrite (setIndex_ok st g gd _ Hpos Hl) in Hdo. injection Hdo as <-.
    cbn [groups setGroups]. rewrite Hgs in *.
    destruct (Z.to_nat g) as [|n]; cbn in *.
    + injection Hl as <-. eexists _, others. split; [reflexivity | exact Hname].
    + exists g0, (<[n := {| name := name gd; output := output gd;
                             enabled := on |}]> others).
      split; [reflexivity | exact Hname].
  - discriminate.
Qed.

Lemma reset_hasDefault (st : Store) :
  groups st = [] \/ hasDefault st -> hasDefault (store (reset st)).
Proof.
  intros [Hgs | Hd]; unfold reset; cbn [store].
  - rewrite Hgs. cbn. exists (defaultGroup Stdout true), []. auto.
  - destruct Hd as (g0 & others & Hgs & Hname). rewrite Hgs. cbn.
    exists g0, others. rewrite Hgs. auto.
Qed.

(** In every execution the default group keeps index 0 and the empty
    name. *)
Lemma step_hasDefault (l : label) (s s' : Sys) :
  hasDefault (store s) -> step l s = Next s' -> hasDefault (store s').
Proof.
  intros Hd Hstep. destruct l; cbn [step] in Hstep.
  - unfold send in Hstep. destruct (closed s); [discriminate|].
    destruct (length (logstream s) <? chanBufSize)%nat; [|discriminate].
    now injection Hstep as <-.
  - unfold direct in Hstep.
    destruct (RegisterGroup nm out on (store s)) as [n st1|] eqn:Hreg;
      [|discriminate].
    injection Hstep as <-. cbn [store withStore].
    unfold RegisterGroup, bind in Hreg.
    destruct Hd as (g0 & others & Hgs & Hname).
    destruct (checkName nm (groups (store s)) (store s)) as [[] st2|] eqn:Hck;
      [|discriminate].
    assert (st2 = store s) as ->.
    { destruct (String.eqb nm EmptyString) eqn:E.
      - rewrite Hgs in Hck. cbn [checkName] in Hck. rewrite Hname, E in Hck.
        discriminate.
      - clear - Hck. revert Hck. generalize (groups (store s)) as gs.
        induction gs as [|group rest IH]; cbn [checkName].
        + intros E. now injection E.
        + destruct (String.eqb nm (name group)); [discriminate | exact IH]. }
    unfold lenGroups at 1 in Hreg. rewrite Hgs in Hreg. cbn [length] in Hreg.
    destruct (Z.eqb_spec (Z.of_nat (S (length others))) 0); [lia|].
    cbn in Hreg. injection Hreg as _ <-. cbn. rewrite Hgs.
    exists g0, (others ++ [{| name := nm; output := out; enabled := on |}]).
    auto.
  - unfold direct in Hstep.
    destruct Hd as (g0 & others & Hgs & Hname).
    rewrite (SetDefaultOutput_cons _ g0 others out Hgs) in Hstep.
    injection Hstep as <-. cbn. eexists _, others. split; reflexivity.
  - unfold logRoutine in Hstep. destruct (worker s); [|discriminate].
    destruct (logstream s) as [|i rest].
    + destruct (closed s); [|discriminate]. now injection Hstep as <-.
    + destruct (do_ i (store s)) as [u st1|] eqn:Hdo; [|discriminate].
      injection Hstep as <-. cbn [store].
      now apply (do_hasDefault i (store s) st1 u).
  - unfold Done_close in Hstep. destruct (closed s); [discriminate|].
    now injection Hstep as <-.
  - unfold Done_wait in Hstep. destruct (doneCall s); try discriminate.
    destruct (waitGroup s =? 0); [|discriminate]. now injection Hstep as <-.
Qed.

Lemma run_hasDefault (ls : list label) : forall s s' : Sys,
  hasDefault (store s) -> run ls s = Next s' -> hasDefault (store s').
Proof.
  induction ls as [|l ls IH]; intros s s' Hd Hrun; cbn [run] in Hrun.
  - now injection Hrun as <-.
  - destruct (step l s) as [s1| |] eqn:Hstep; try discriminate.
    apply (IH s1); [|exact Hrun]. now apply (step_hasDefault l s).
Qed.

Lemma default_group_present (ls : list label) (s : Sys) :
  run ls initial = Next s -> hasDefault (store s).
Proof.
  apply run_hasDefault. apply reset_hasDefault. now left.
Qed.

(** So, at any point of any execution, registering the empty name
    panics. *)
Lemma RegisterGroup_empty_name (ls : list label) (s : Sys) (out : Writer)
    (on : bool) :
  run ls initial = Next s ->
  RegisterGroup EmptyString out on (store s)
  = Panicked (PanicValue "Group name already exists") (store s).
Proof.
  intros Hrun.
  destruct (default_group_present ls s Hrun) as (g0 & others & Hgs & Hname).
  apply RegisterGroup_taken. rewrite Hgs. cbn. left. exact Hname.
Qed.

(** ** The claims at sample inputs *)

Lemma severity_gating_witness :
  let gd := {| name := "test"; output := testWriter; enabled := true |} in
  (0 <= 1 /\ groups testStore !! Z.to_nat 1 = Some gd) /\
  exists line,
    printLog 1 leapNoon "Test trace" testStore
    = Ok tt (addWrite (output gd) line testStore) /\
    do_ (traceMsg 1 leapNoon "Test trace") testStore
    = Ok tt (if traceEnabled testStore && enabled gd
             then addWrite (output gd) line testStore else testStore) /\
    do_ (infoMsg 1 leapNoon "Test trace") testStore
    = Ok tt (if enabled gd then addWrite (output gd) line testStore
             else testStore) /\
    forall b,
      do_ (infoMsg 1 leapNoon "Test trace") (setTraceEnabled b testStore)
      = Ok tt (setTraceEnabled b
                 (if enabled gd then addWrite (output gd) line testStore
                  else testStore)).
Proof.
  intros gd. split; [split; [lia | reflexivity]|].
  apply (severity_gating testStore 1 gd leapNoon "Test trace");
    [lia | reflexivity].
Defined.

Lemma Done_drains_witness :
  let ls := [Send (infoMsg 0 leapNoon "a"); Send (cmdEnabletrace true);
             WorkerTurn; Send (traceMsg 0 leapNoon "b"); DoneClose;
             WorkerTurn; WorkerTurn; WorkerTurn; DoneWait] in
  exists s,
    run ls (reset zeroStore) = Next s /\
    doneCall s = Returned /\
    written (store s)
    = [(Stdout, "2000-2-29 12:34:56.123456 a" +:+ newline);
       (Stdout, "2000-2-29 12:34:56.123456 b" +:+ newline)] /\
    traceEnabled (store s) = true /\
    logstream s = [] /\ handled s = sends ls /\ worker s = Exited /\
    commandsOf (replay ls []) = sends ls /\
    performAll (replay ls []) (store (reset zeroStore)) = Ok tt (store s).
Proof.
  intros ls. eexists. split; [vm_compute; reflexivity|].
  split; [reflexivity|]. split; [vm_compute; reflexivity|].
  split; [reflexivity|].
  eapply (Done_drains zeroStore ls); vm_compute; reflexivity.
Defined.


Lemma RegisterGroup_duplicate_witness :
  (In "test" (map name (groups testStore)) /\
   ~ In "audit" (map name (groups testStore))) /\
  let failed := RegisterGroup "test" 2%nat false testStore in
  failed = Panicked (PanicValue "Group name already exists") testStore /\
  (forall g0, groups testStore !! 0%nat = Some g0 -> name g0 = EmptyString ->
   RegisterGroup EmptyString 2%nat false testStore
   = Panicked (PanicValue "Group name already exists") testStore) /\
  storeOf failed = testStore /\
  RegisterGroup "audit" 3%nat true (storeOf failed)
  = Ok (Z.of_nat (length (groups testStore)))
       (setGroups
          (groups testStore
             ++ [{| name := "audit"; output := 3%nat; enabled := true |}])
          testStore).
Proof.
  assert (Hin : In "test" (map name (groups testStore))).
  { cbn. right. left. reflexivity. }
  assert (Hfresh : ~ In "audit" (map name (groups testStore))).
  { cbn. intros [H | [H | []]]; discriminate H. }
  split; [split; assumption|].
  exact (RegisterGroup_duplicate testStore "test" 2%nat false
           "audit" 3%nat true Hin Hfresh).
Defined.

Lemma printLog_line_shape_witness :
  let gd := {| name := "test"; output := testWriter; enabled := true |} in
  (0 <= 1 /\ groups testStore !! Z.to_nat 1 = Some gd /\
   validTime leapNoon /\ 0 <= Year (UTC leapNoon) <= 9999) /\
  let u := UTC leapNoon in
  let yyyy := appendInt (Year u) 4 in
  let mo := appendInt (Month u) 0 in
  let dd := appendInt (Day u) 0 in
  let hh := appendInt (Hour u) 2 in
  let mi := appendInt (Minute u) 2 in
  let ss := appendInt (Second u) 2 in
  let ffffff := firstChars 6 (appendInt (Nanosecond u) 9) in
  let timestamp :=
    yyyy +:+ "-" +:+ mo +:+ "-" +:+ dd +:+ " "
      +:+ hh +:+ ":" +:+ mi +:+ ":" +:+ ss +:+ "." +:+ ffffff in
  timestamp = "2000-2-29 12:34:56.123456" /\
  wallSec u = unixSec leapNoon /\
  fixedDigits 4 yyyy /\ plainDigits mo /\ plainDigits dd /\
  fixedDigits 2 hh /\ fixedDigits 2 mi /\ fixedDigits 2 ss /\
  fixedDigits 6 ffffff /\ ffffff = appendInt (Nanosecond u / 1000) 6 /\
  printLog 1 leapNoon "Test info" testStore
  = Ok tt (addWrite (output gd)
             (if 1 =? DefaultGroupId
              then timestamp +:+ " " +:+ "Test info" +:+ newline
              else timestamp +:+ " [" +:+ name gd +:+ "] " +:+ "Test info"
                     +:+ newline)
             testStore).
Proof.
  intros gd.
  assert (Hv : validTime leapNoon) by (unfold validTime; cbn; lia).
  assert (Hy : 0 <= Year (UTC leapNoon) <= 9999).
  { change (Year (UTC leapNoon)) with 2000. lia. }
  split; [repeat split; solve [lia | reflexivity | apply Hv | apply Hy]|].
  split; [reflexivity|].
  exact (printLog_line_shape testStore 1 gd leapNoon "Test info"
           ltac:(lia) eq_refl Hv Hy).
Defined.

Lemma wire_line_format_witness :
  let g0 := defaultGroup Stdout true in
  (0 <= 0 /\ groups testStore !! Z.to_nat 0 = Some g0 /\
   enabled g0 = true /\
   (traceMsg 0 leapNoon "Test trace" = infoMsg 0 leapNoon "Test trace" \/
    (traceMsg 0 leapNoon "Test trace" = traceMsg 0 leapNoon "Test trace" /\
     traceEnabled testStore = true))) /\
  let timestamp := Format (UTC leapNoon) logLayout in
  exists st',
    do_ (traceMsg 0 leapNoon "Test trace") testStore = Ok tt st' /\
    sink (output g0) st'
    = sink (output g0) testStore
        ++ [if 0 =? DefaultGroupId
            then timestamp +:+ " " +:+ "Test trace" +:+ newline
            else wireNamedLine timestamp (name g0) "Test trace"].
Proof.
  intros g0.
  assert (Hc : traceMsg 0 leapNoon "Test trace" = infoMsg 0 leapNoon "Test trace"
               \/ (traceMsg 0 leapNoon "Test trace"
                   = traceMsg 0 leapNoon "Test trace" /\
                   traceEnabled testStore = true)).
  { right. split; reflexivity. }
  split; [repeat split; solve [lia | reflexivity | exact Hc]|].
  exact (wire_line_format testStore 0 g0 leapNoon "Test trace"
           (traceMsg 0 leapNoon "Test trace") ltac:(lia) eq_refl eq_refl Hc).
Defined.

Lemma worker_only_flags_witness :
  exists s',
    step (Send (cmdEnableGroup 1 false)) (reset testStore) = Next s' /\
    store s' = store (reset testStore) /\
    logstream s' = logstream (reset testStore) ++ [cmdEnableGroup 1 false].
Proof.
  eexists. split; [reflexivity|].
  eapply (worker_only_flags (Send (cmdEnableGroup 1 false)) (reset testStore));
    reflexivity.
Defined.

Lemma SetDefaultOutput_frame_witness :
  let g0 := defaultGroup Stdout true in
  let others := [{| name := "test"; output := testWriter; enabled := true |}] in
  (groups testStore = g0 :: others /\ name g0 = EmptyString) /\
  exists st',
    SetDefaultOutput 5%nat testStore = Ok tt st' /\
    groups st'
    = {| name := name g0; output := 5%nat; enabled := enabled g0 |} :: others /\
    (forall i : nat, (1 <= i)%nat -> groups st' !! i = groups testStore !! i) /\
    length (groups st') = length (groups testStore) /\
    traceEnabled st' = traceEnabled testStore /\
    written st' = written testStore.
Proof.
  intros g0 others. split; [split; reflexivity|].
  exact (SetDefaultOutput_frame testStore g0 others 5%nat eq_refl eq_refl).
Defined.

Lemma unvalidated_index_witness :
  (2 < 0 \/ Z.of_nat (length (groups testStore)) <= 2) /\
  let oops := Panicked (IndexOutOfRange 2 (length (groups testStore)))
                testStore in
  do_ (infoMsg 2 leapNoon "x") testStore = oops /\
  do_ (cmdEnableGroup 2 false) testStore = oops /\
  do_ (traceMsg 2 leapNoon "x") testStore
  = (if traceEnabled testStore then oops else Ok tt testStore).
Proof.
  assert (H : 2 < 0 \/ Z.of_nat (length (groups testStore)) <= 2).
  { right. cbn. lia. }
  split; [exact H|].
  destruct (unvalidated_index testStore 2 leapNoon "x" false (reset testStore) H)
    as (Hi & He & Ht & _).
  repeat split; assumption.
Defined.

(** * Further properties of the package *)

(** ** What a command does, case by case *)
Lemma groupAt_index (st : Store) (g : Z) :
  index g st
  = match groupAt st g with
    | Some gd => Ok gd st
    | None => Panicked (IndexOutOfRange g (length (groups st))) st
    end.
Proof.
  unfold groupAt. destruct (Z.leb_spec 0 g) as [Hpos | Hneg].
  - destruct (groups st !! Z.to_nat g) as [gd|] eqn:Hl.
    + now apply index_ok.
    + apply index_out_of_range. right. apply lookup_ge_None in Hl. lia.
  - apply index_out_of_range. now left.
Qed.

Lemma groupAt_printLog (st : Store) (g : Z) (gd : groupData) (t : Time)
    (m : string) :
  groupAt st g = Some gd ->
  printLog g t m st
  = Ok tt (addWrite (output gd) (lineText g (name gd) t m) st).
Proof.
  unfold groupAt. destruct (Z.leb_spec 0 g) as [Hpos|]; [|discriminate].
  intros Hl. unfold lineText, DefaultGroupId.
  destruct (Z.eqb_spec g 0) as [-> | Hne].
  - now apply printLog_default.
  - apply printLog_named; [lia | exact Hl].
Qed.

Lemma infoMsg_do_emit (st : Store) (g : Z) (t : Time) (m : string) :
  infoMsg_do g t m st = emit st g t m.
Proof.
  unfold infoMsg_do, bind, emit. rewrite groupAt_index.
  destruct (groupAt st g) as [gd|] eqn:Hg; [|reflexivity].
  destruct (enabled gd); [now apply groupAt_printLog | reflexivity].
Qed.

Lemma traceMsg_do_emit (st : Store) (g : Z) (t : Time) (m : string) :
  traceMsg_do g t m st = if traceEnabled st then emit st g t m else Ok tt st.
Proof.
  unfold traceMsg_do. destruct (traceEnabled st); [|reflexivity].
  exact (infoMsg_do_emit st g t m).
Qed.

Lemma cmdEnableGroup_do_spec (st : Store) (g : Z) (on : bool) :
  cmdEnableGroup_do g on st
  = match groupAt st g with
    | None => Panicked (IndexOutOfRange g (length (groups st))) st
    | Some gd =>
        Ok tt (setGroups
                 (<[Z.to_nat g := {| name := name gd; output := output gd;
                                     enabled := on |}]> (groups st)) st)
    end.
Proof.
  unfold cmdEnableGroup_do, bind. rewrite groupAt_index.
  destruct (groupAt st g) as [gd|] eqn:Hg; [|reflexivity].
  unfold groupAt in Hg. destruct (Z.leb_spec 0 g) as [Hpos|]; [|discriminate].
  now apply (setIndex_ok st g gd).
Qed.

(** X1. A command that panics has no effect: whenever the [do] of a
    command panics, the variables and everything written so far are
    exactly as they were before it ran. *)
Theorem panic_leaves_store (c : logApi) (st st' : Store) (p : panic) :
  do_ c st = Panicked p st' -> st' = st.
Proof.
  destruct c as [g t m | g t m | on | g on |]; cbn [do_].
  - rewrite traceMsg_do_emit. destruct (traceEnabled st); [|discriminate].
    unfold emit. destruct (groupAt st g) as [gd|].
    + destruct (enabled gd); discriminate.
    + now intros [= _ <-].
  - rewrite infoMsg_do_emit. unfold emit. destruct (groupAt st g) as [gd|].
    + destruct (enabled gd); discriminate.
    + now intros [= _ <-].
  - discriminate.
  - rewrite cmdEnableGroup_do_spec.
    destruct (groupAt st g); [discriminate | now intros [= _ <-]].
  - now intros [= _ <-].
Qed.

(** ** Enabling and disabling *)
Lemma groupAt_Some (st : Store) (g : Z) (gd : groupData) :
  groupAt st g = Some gd <-> 0 <= g /\ groups st !! Z.to_nat g = Some gd.
Proof.
  unfold groupAt. destruct (Z.leb_spec 0 g); split.
  - auto.
  - now intros [_ H'].
  - discriminate.
  - intros [H' _]. lia.
Qed.

Lemma cmdEnableGroup_ok (st : Store) (g : Z) (gd : groupData) (on : bool) :
  groupAt st g = Some gd ->
  let flipped := {| name := name gd; output := output gd; enabled := on |} in
  let st' := setGroups (<[Z.to_nat g := flipped]> (groups st)) st in
  do_ (cmdEnableGroup g on) st = Ok tt st' /\
  groupAt st' g = Some flipped /\
  (forall g', g' <> g -> groupAt st' g' = groupAt st g').
Proof.
  intros Hg flipped st'. cbn [do_]. rewrite cmdEnableGroup_do_spec, Hg.
  apply groupAt_Some in Hg as [Hpos Hl].
  split; [reflexivity|]. subst st'. split.
  - unfold groupAt. cbn [groups setGroups]. destruct (Z.leb_spec 0 g); [|lia].
    apply list_lookup_insert_eq. now apply lookup_lt_Some in Hl.
  - intros g' Hne. unfold groupAt. cbn [groups setGroups].
    destruct (Z.leb_spec 0 g'); [|reflexivity].
    apply list_lookup_insert_ne. lia.
Qed.

(** X2. [EnableGroup] executed: for a registered group, the command
    returns normally and sets the enabled flag of that group to the given
    value; the group keeps its name and its output, every other group is
    untouched, and so are the number of groups, the trace flag and the
    writers. *)
Theorem cmdEnableGroup_effect (st : Store) (g : Z) (gd : groupData)
    (on : bool) :
  groupAt st g = Some gd ->
  exists st',
    do_ (cmdEnableGroup g on) st = Ok tt st' /\
    groupAt st' g
    = Some {| name := name gd; output := output gd; enabled := on |} /\
    (forall g', g' <> g -> groupAt st' g' = groupAt st g') /\
    length (groups st') = length (groups st) /\
    traceEnabled st' = traceEnabled st /\
    written st' = written st.
Proof.
  intros Hg. destruct (cmdEnableGroup_ok st g gd on Hg) as (Hdo & Hg1 & Hoth).
  eexists. split; [exact Hdo|]. split; [exact Hg1|]. split; [exact Hoth|].
  cbn [groups setGroups traceEnabled written]. rewrite length_insert.
  repeat split.
Qed.

(** X3. The last [EnableGroup] wins: executing two enable commands for
    the same index one after the other comes to executing the second one
    alone, whatever the index is (on an unregistered index both sides
    panic alike); in particular repeating a command changes nothing. *)
Theorem cmdEnableGroup_last_wins (st : Store) (g : Z) (a b : bool) :
  doAll [cmdEnableGroup g a; cmdEnableGroup g b] st
  = do_ (cmdEnableGroup g b) st.
Proof.
  cbn [doAll do_]. unfold bind. rewrite !cmdEnableGroup_do_spec.
  destruct (groupAt st g) as [gd|] eqn:Hg; [|reflexivity].
  apply groupAt_Some in Hg as [Hpos Hl].
  rewrite cmdEnableGroup_do_spec.
  assert (Hlt : (Z.to_nat g < length (groups st))%nat)
    by now apply lookup_lt_Some in Hl.
  unfold groupAt. cbn [groups setGroups]. destruct (Z.leb_spec 0 g); [|lia].
  rewrite list_lookup_insert_eq by exact Hlt.
  unfold ret, setGroups. cbn. now rewrite list_insert_insert_eq.
Qed.

Lemma do_log_same (c : logApi) (st st1 : Store) (g : Z) :
  logGroup c = Some g ->
  groupAt st1 g = groupAt st g ->
  length (groups st1) = length (groups st) ->
  traceEnabled st1 = traceEnabled st ->
  written st1 = written st ->
  written (storeOf (do_ c st1)) = written (storeOf (do_ c st)).
Proof.
  intros Hc Hg Hlen Htr Hw.
  assert (He : forall t m,
            written (storeOf (emit st1 g t m))
            = written (storeOf (emit st g t m))).
  { intros t m. unfold emit. rewrite Hg, Hlen.
    destruct (groupAt st g) as [gd|]; [|exact Hw].
    destruct (enabled gd); cbn; now rewrite Hw. }
  destruct c as [g0 t m | g0 t m | | |]; cbn in Hc; try discriminate;
    injection Hc as ->; cbn [do_].
  - rewrite !traceMsg_do_emit, Htr.
    destruct (traceEnabled st); [apply He | exact Hw].
  - rewrite !infoMsg_do_emit. apply He.
Qed.

(** X4. Disabling a group silences that group and no other: once
    [EnableGroup(g, false)] has been executed for a registered group,
    every trace-level and info-level command for that group returns
    without writing anything, while a log command for any other index
    writes (or fails to write) exactly what it would have written
    before. *)
Theorem disable_silences_group (st : Store) (g : Z) (gd : groupData) :
  groupAt st g = Some gd ->
  exists st1,
    do_ (cmdEnableGroup g false) st = Ok tt st1 /\
    (forall t m,
       do_ (infoMsg g t m) st1 = Ok tt st1 /\
       do_ (traceMsg g t m) st1 = Ok tt st1) /\
    (forall c g',
       logGroup c = Some g' -> g' <> g ->
       written (storeOf (do_ c st1)) = written (storeOf (do_ c st))).
Proof.
  intros Hg.
  destruct (cmdEnableGroup_ok st g gd false Hg) as (Hdo & Hg1 & Hother).
  eexists. split; [exact Hdo|]. split.
  - intros t m. cbn [do_]. rewrite traceMsg_do_emit, infoMsg_do_emit.
    unfold emit. rewrite Hg1. cbn [enabled].
    split; [reflexivity|].
    now destruct (traceEnabled (setGroups _ st)).
  - intros c g' Hc Hne. apply (do_log_same c st _ g'); auto.
    cbn [groups setGroups]. now rewrite length_insert.
Qed.

(** X5. With the trace flag switched off, trace-level logging is dead:
    executing [EnableTrace(false)] and then any number of trace-level
    commands, for whatever group indices (registered or not), returns
    normally and changes nothing but the flag; nothing is written and no
    index is looked up. *)
Theorem trace_off_batch (st : Store) (cs : list logApi) :
  Forall isTrace cs ->
  doAll (cmdEnabletrace false :: cs) st = Ok tt (setTraceEnabled false st).
Proof.
  intros Hall. cbn [doAll do_]. unfold bind, cmdEnabletrace_do.
  generalize (eq_refl : traceEnabled (setTraceEnabled false st) = false).
  generalize (setTraceEnabled false st) as st1. clear st.
  induction Hall as [|c cs Hc _ IH]; intros st1 Hoff; [reflexivity|].
  destruct c as [g t m | | | |]; cbn in Hc; try contradiction.
  cbn [doAll do_]. unfold bind. rewrite traceMsg_do_emit, Hoff.
  now apply IH.
Qed.

(** ** Registration *)
Lemma checkName_Ok (nm : string) (gs : list groupData) (st st' : Store)
    (u : unit) :
  checkName nm gs st = Ok u st' -> st' = st /\ ~ In nm (map name gs).
Proof.
  induction gs as [|group rest IH]; cbn [checkName map].
  - intros [= _ <-]. split; [reflexivity | intros []].
  - destruct (String.eqb_spec nm (name group)) as [E | Hne]; [discriminate|].
    intros H. destruct (IH H) as [-> Hin]. split; [reflexivity|].
    intros [E | Hin']; [now apply Hne | now apply Hin].
Qed.

(** The result of a registration that returns, spelled out. *)
Lemma RegisterGroup_Ok (nm : string) (out : Writer) (on : bool)
    (st st' : Store) (id : Z) :
  RegisterGroup nm out on st = Ok id st' ->
  let new := {| name := nm; output := out; enabled := on |} in
  ~ In nm (map name (groups st)) /\
  match groups st with
  | [] => id = 1 /\ st' = setGroups [defaultGroup Stdout true; new] st
  | _ :: _ =>
      id = Z.of_nat (length (groups st)) /\
      st' = setGroups (groups st ++ [new]) st
  end.
Proof.
  intros H new. unfold RegisterGroup, bind in H.
  destruct (checkName nm (groups st) st) as [u st1|] eqn:Hck; [|discriminate].
  apply checkName_Ok in Hck as [-> Hfresh]. split; [exact Hfresh|].
  unfold lenGroups at 1 in H.
  destruct (groups st) as [|g0 others] eqn:Hgs.
  - change (Z.of_nat (length []) =? 0) with true in H.
    unfold appendGroup, lenGroups, ret in H. cbn [groups setGroups] in H.
    rewrite Hgs in H. injection H as <- <-. split; reflexivity.
  - cbn [length] in H.
    destruct (Z.eqb_spec (Z.of_nat (S (length others))) 0); [lia|].
    unfold appendGroup, lenGroups, ret in H. cbn [groups setGroups] in H.
    rewrite Hgs in H. injection H as <- <-.
    rewrite length_app. cbn [length]. split; [lia | reflexivity].
Qed.

(** The registry after a registration that returns: what was there
    (with the default group created first if there was nothing), then the
    new group, whose index is returned. *)
Lemma RegisterGroup_Ok_last (nm : string) (out : Writer) (on : bool)
    (st st' : Store) (id : Z) :
  RegisterGroup nm out on st = Ok id st' ->
  let new := {| name := nm; output := out; enabled := on |} in
  exists before,
    st' = setGroups (before ++ [new]) st /\
    id = Z.of_nat (length before) /\ (1 <= length before)%nat /\
    (forall i gd, groups st !! i = Some gd -> before !! i = Some gd).
Proof.
  intros H new. apply RegisterGroup_Ok in H as [_ H].
  destruct (groups st) as [|g0 others] eqn:Hgs; destruct H as [-> ->].
  - exists [defaultGroup Stdout true]. cbn. repeat split; try lia.
    intros i gd Hl. destruct i; discriminate.
  - exists (g0 :: others). cbn [length]. repeat split; try lia. auto.
Qed.

(** X6. The ID that [RegisterGroup] returns: whenever a registration
    returns, the ID is at least 1 (never that of the default group), it
    is the index of the last group, and that group has the name, the
    output and the enabled flag just given; every group registered before
    is still found at its index, unchanged, and neither the trace flag
    nor the writers are touched. *)
Theorem RegisterGroup_id (nm : string) (out : Writer) (on : bool)
    (st st' : Store) (id : Z) :
  RegisterGroup nm out on st = Ok id st' ->
  1 <= id /\
  id = Z.of_nat (length (groups st')) - 1 /\
  groupAt st' id = Some {| name := nm; output := out; enabled := on |} /\
  (forall g gd, groupAt st g = Some gd -> groupAt st' g = Some gd) /\
  traceEnabled st' = traceEnabled st /\
  written st' = written st.
Proof.
  intros H.
  destruct (RegisterGroup_Ok_last _ _ _ _ _ _ H)
    as (before & -> & -> & Hlen & Hold).
  cbn [groups setGroups traceEnabled written].
  rewrite length_app. cbn [length].
  split; [lia|]. split; [lia|]. split; [|split; [|split; reflexivity]].
  - apply groupAt_Some. split; [lia|]. cbn [groups]. rewrite Nat2Z.id.
    now apply list_lookup_middle.
  - intros g gd Hg. apply groupAt_Some in Hg as [Hpos Hl].
    apply groupAt_Some. split; [exact Hpos|]. cbn [groups].
    apply lookup_app_l_Some. now apply Hold.
Qed.

(** X7. The returned ID addresses the new group: an info-level command
    for the ID that a registration returned writes, when the group was
    registered enabled, exactly one line on the output given at
    registration, with the registered name between square brackets; when
    it was registered disabled the command writes nothing. *)
Theorem RegisterGroup_then_log (nm : string) (out : Writer) (on : bool)
    (st st' : Store) (id : Z) (t : Time) (msg : string) :
  RegisterGroup nm out on st = Ok id st' ->
  do_ (infoMsg id t msg) st'
  = Ok tt (if on
           then addWrite out
                  (Format (UTC t) logLayout +:+ " [" +:+ nm +:+ "] "
                     +:+ msg +:+ newline) st'
           else st').
Proof.
  intros H.
  destruct (RegisterGroup_Ok_last _ _ _ _ _ _ H)
    as (before & -> & -> & Hlen & _).
  cbn [do_]. rewrite infoMsg_do_emit. unfold emit.
  assert (Hg : groupAt (setGroups (before ++ [{| name := nm; output := out;
                                                 enabled := on |}]) st)
                 (Z.of_nat (length before))
               = Some {| name := nm; output := out; enabled := on |}).
  { apply groupAt_Some. split; [lia|]. cbn [groups setGroups].
    rewrite Nat2Z.id. now apply list_lookup_middle. }
  rewrite Hg. cbn [enabled output name].
  unfold lineText, DefaultGroupId.
  destruct (Z.eqb_spec (Z.of_nat (length before)) 0); [lia|].
  now destruct on.
Qed.

(** X8. [RegisterGroup] panics exactly on a duplicate: the call panics
    if and only if the name is that of a group in the registry; in every
    other case it returns. *)
Theorem RegisterGroup_panics_iff (nm : string) (out : Writer) (on : bool)
    (st : Store) :
  (exists p st', RegisterGroup nm out on st = Panicked p st')
  <-> In nm (map name (groups st)).
Proof.
  split.
  - intros (p & st' & H).
    destruct (in_dec string_dec nm (map name (groups st))) as [Hin | Hout];
      [exact Hin|].
    exfalso. unfold RegisterGroup, bind in H.
    rewrite (checkName_fresh nm (groups st) st Hout) in H.
    unfold lenGroups at 1 in H.
    destruct (Z.of_nat (length (groups st)) =? 0); discriminate H.
  - intros Hin. eexists _, _. now apply RegisterGroup_taken.
Qed.

(** X9. [RegisterGroup] on an empty registry: the call first creates the
    default group (on standard output, enabled), then appends the new
    group and returns 1.  No name is refused on an empty registry, the
    empty name included, which then names two groups. *)
Theorem RegisterGroup_empty_registry (nm : string) (out : Writer)
    (on : bool) (st : Store) :
  groups st = [] ->
  RegisterGroup nm out on st
  = Ok 1 (setGroups [defaultGroup Stdout true;
                     {| name := nm; output := out; enabled := on |}] st)
  /\ (nm = EmptyString ->
      ~ NoDup (map name (groups (storeOf (RegisterGroup nm out on st))))).
Proof.
  intros Hgs.
  assert (E : RegisterGroup nm out on st
              = Ok 1 (setGroups [defaultGroup Stdout true;
                       {| name := nm; output := out; enabled := on |}] st)).
  { unfold RegisterGroup, bind. rewrite Hgs. cbn [checkName]. unfold ret.
    unfold lenGroups at 1. rewrite Hgs.
    change (Z.of_nat (length []) =? 0) with true.
    unfold appendGroup, lenGroups. cbn [groups setGroups]. rewrite Hgs.
    reflexivity. }
  split; [exact E|]. intros ->. rewrite E. cbn.
  intros Hnd. apply NoDup_cons in Hnd as [Hnotin _]. apply Hnotin.
  now left.
Qed.

(** ** The registry over a whole execution *)

(** A command that returns leaves the registry as it was or flips the
    enabled flag of one registered group. *)
Lemma do_groups_cases (c : logApi) (st st' : Store) (u : unit) :
  do_ c st = Ok u st' ->
  groups st' = groups st \/
  exists g gd on,
    groupAt st g = Some gd /\
    groups st'
    = <[Z.to_nat g := {| name := name gd; output := output gd;
                         enabled := on |}]> (groups st).
Proof.
  destruct c as [g t m | g t m | on | g on |]; cbn [do_].
  - rewrite traceMsg_do_emit. unfold emit.
    destruct (traceEnabled st); [|intros [= _ <-]; now left].
    destruct (groupAt st g) as [gd|]; [|discriminate].
    destruct (enabled gd); intros [= _ <-]; now left.
  - rewrite infoMsg_do_emit. unfold emit.
    destruct (groupAt st g) as [gd|]; [|discriminate].
    destruct (enabled gd); intros [= _ <-]; now left.
  - intros [= _ <-]. now left.
  - rewrite cmdEnableGroup_do_spec.
    destruct (groupAt st g) as [gd|] eqn:Hg; [|discriminate].
    intros [= _ <-]. right. now exists g, gd, on.
  - discriminate.
Qed.

Lemma do_names (c : logApi) (st st' : Store) (u : unit) :
  do_ c st = Ok u st' -> map name (groups st') = map name (groups st).
Proof.
  intros H. destruct (do_groups_cases c st st' u H)
    as [-> | (g & gd & on & Hg & ->)]; [reflexivity|].
  apply groupAt_Some in Hg as [_ Hl].
  change (map name) with (fmap (M := list) name).
  rewrite list_fmap_insert. cbn [name]. apply list_insert_id.
  now rewrite list_lookup_fmap, Hl.
Qed.

Lemma settled_refl (st : Store) : settled st st.
Proof. intros i gd Hl. exists gd. auto. Qed.

Lemma settled_trans (a b c : Store) :
  settled a b -> settled b c -> settled a c.
Proof.
  intros Hab Hbc i gd Hl.
  destruct (Hab i gd Hl) as (gd1 & Hl1 & Hn1 & Ho1).
  destruct (Hbc i gd1 Hl1) as (gd2 & Hl2 & Hn2 & Ho2).
  exists gd2. split; [exact Hl2|]. split; [congruence|].
  intros Hi. rewrite Ho2, Ho1; auto.
Qed.

Lemma do_settled (c : logApi) (st st' : Store) (u : unit) :
  do_ c st = Ok u st' -> settled st st'.
Proof.
  intros H i gd Hl. destruct (do_groups_cases c st st' u H)
    as [-> | (g & gd0 & on & Hg & ->)].
  - exists gd. auto.
  - apply groupAt_Some in Hg as [_ Hl0].
    destruct (Nat.eq_dec (Z.to_nat g) i) as [<- | Hne].
    + rewrite Hl0 in Hl. injection Hl as <-.
      exists {| name := name gd0; output := output gd0; enabled := on |}.
      split; [|split; reflexivity].
      apply list_lookup_insert_eq. now apply lookup_lt_Some in Hl0.
    + exists gd. rewrite list_lookup_insert_ne by exact Hne. auto.
Qed.

Lemma step_settled (l : label) (s s' : Sys) :
  hasDefault (store s) -> step l s = Next s' ->
  settled (store s) (store s').
Proof.
  intros Hd Hstep. destruct l; cbn [step] in Hstep.
  - unfold send in Hstep. destruct (closed s); [discriminate|].
    destruct (length (logstream s) <? chanBufSize)%nat; [|discriminate].
    injection Hstep as <-. apply settled_refl.
  - unfold direct in Hstep.
    destruct (RegisterGroup nm out on (store s)) as [id st1|] eqn:Hreg;
      [|discriminate].
    injection Hstep as <-. cbn [store withStore].
    destruct (RegisterGroup_Ok_last _ _ _ _ _ _ Hreg)
      as (before & -> & _ & _ & Hold).
    intros i gd Hl. exists gd. cbn [groups setGroups].
    split; [|auto]. apply lookup_app_l_Some. now apply Hold.
  - unfold direct in Hstep. destruct Hd as (g0 & others & Hgs & Hname).
    rewrite (SetDefaultOutput_cons _ g0 others out Hgs) in Hstep.
    injection Hstep as <-. cbn [store withStore groups setGroups].
    intros i gd Hl. rewrite Hgs in Hl. destruct i as [|i]; cbn in *.
    + injection Hl as <-. exists (defaultGroup out (enabled g0)).
      split; [reflexivity|]. split; [now rewrite Hname | lia].
    + exists gd. auto.
  - unfold logRoutine in Hstep. destruct (worker s); [|discriminate].
    destruct (logstream s) as [|i rest].
    + destruct (closed s); [|discriminate]. injection Hstep as <-.
      apply settled_refl.
    + destruct (do_ i (store s)) as [u st1|] eqn:Hdo; [|discriminate].
      injection Hstep as <-. cbn [store]. now apply (do_settled i _ _ u).
  - unfold Done_close in Hstep. destruct (closed s); [discriminate|].
    injection Hstep as <-. apply settled_refl.
  - unfold Done_wait in Hstep. destruct (doneCall s); try discriminate.
    destruct (waitGroup s =? 0); [|discriminate]. injection Hstep as <-.
    apply settled_refl.
Qed.

(** X10. IDs stay valid and groups are never renamed: along any
    execution that starts with the default group in place, a group found
    at an index is found at the same index ever after, under the same
    name; past index 0 it also keeps its output (only the default group
    can be redirected).  No action removes or moves a group. *)
Theorem ids_stable (ls : list label) (s s' : Sys) (i : nat)
    (gd : groupData) :
  hasDefault (store s) -> run ls s = Next s' ->
  groups (store s) !! i = Some gd ->
  exists gd',
    groups (store s') !! i = Some gd' /\ name gd' = name gd /\
    ((1 <= i)%nat -> output gd' = output gd).
Proof.
  intros Hd Hrun. revert i gd. change (settled (store s) (store s')).
  revert s Hd Hrun. induction ls as [|l ls IH]; intros s Hd Hrun.
  - cbn in Hrun. injection Hrun as <-. apply settled_refl.
  - cbn [run] in Hrun.
    destruct (step l s) as [s1| |] eqn:Hstep; try discriminate.
    apply (settled_trans _ (store s1)).
    + now apply (step_settled l).
    + apply IH; [|exact Hrun]. now apply (step_hasDefault l s).
Qed.

Lemma step_names_unique (l : label) (s s' : Sys) :
  hasDefault (store s) -> NoDup (map name (groups (store s))) ->
  step l s = Next s' -> NoDup (map name (groups (store s'))).
Proof.
  intros Hd Hnd Hstep. destruct l; cbn [step] in Hstep.
  - unfold send in Hstep. destruct (closed s); [discriminate|].
    destruct (length (logstream s) <? chanBufSize)%nat; [|discriminate].
    now injection Hstep as <-.
  - unfold direct in Hstep.
    destruct (RegisterGroup nm out on (store s)) as [id st1|] eqn:Hreg;
      [|discriminate].
    injection Hstep as <-. cbn [store withStore].
    apply RegisterGroup_Ok in Hreg as [Hfresh Hreg].
    destruct Hd as (g0 & others & Hgs & _).
    rewrite Hgs in Hreg, Hnd, Hfresh.
    destruct Hreg as [_ ->]. cbn [groups setGroups]. rewrite map_app.
    apply NoDup_app. split; [exact Hnd|]. split.
    + intros x Hx Hx'. cbn in Hx'. apply list_elem_of_singleton in Hx'.
      subst x. apply Hfresh. now apply list_elem_of_In.
    + cbn. apply NoDup_singleton.
  - unfold direct in Hstep. destruct Hd as (g0 & others & Hgs & Hname).
    rewrite (SetDefaultOutput_cons _ g0 others out Hgs) in Hstep.
    injection Hstep as <-. cbn [store withStore groups setGroups].
    rewrite Hgs in Hnd. cbn in *. now rewrite Hname in Hnd.
  - unfold logRoutine in Hstep. destruct (worker s); [|discriminate].
    destruct (logstream s) as [|i rest].
    + destruct (closed s); [|discriminate]. now injection Hstep as <-.
    + destruct (do_ i (store s)) as [u st1|] eqn:Hdo; [|discriminate].
      injection Hstep as <-. cbn [store].
      now rewrite (do_names i _ _ u Hdo).
  - unfold Done_close in Hstep. destruct (closed s); [discriminate|].
    now injection Hstep as <-.
  - unfold Done_wait in Hstep. destruct (doneCall s); try discriminate.
    destruct (waitGroup s =? 0); [|discriminate]. now injection Hstep as <-.
Qed.

(** X11. No two groups share a name: in every execution of the package
    from its start, whatever is registered, redirected, enabled or
    logged, the names of the registered groups are pairwise distinct. *)
Theorem names_unique (ls : list label) (s : Sys) :
  run ls initial = Next s -> NoDup (map name (groups (store s))).
Proof.
  assert (H : forall s0 s1 : Sys,
            hasDefault (store s0) -> NoDup (map name (groups (store s0))) ->
            run ls s0 = Next s1 -> NoDup (map name (groups (store s1)))).
  { induction ls as [|l ls IH]; intros s0 s1 Hd Hnd Hrun; cbn [run] in Hrun.
    - now injection Hrun as <-.
    - destruct (step l s0) as [s2| |] eqn:Hstep; try discriminate.
      apply (IH s2 s1); [| |exact Hrun].
      + now apply (step_hasDefault l s0).
      + now apply (step_names_unique l s0). }
  apply H.
  - apply reset_hasDefault. now left.
  - cbn. apply NoDup_singleton.
Qed.

(** X12. The default group is always there: in every execution of the
    package from its start, index 0 holds a group whose name is empty,
    so a log command for the default group never panics. *)
Theorem default_group_always (ls : list label) (s : Sys) :
  run ls initial = Next s ->
  exists g0,
    groupAt (store s) DefaultGroupId = Some g0 /\ name g0 = EmptyString /\
    forall t msg,
      do_ (infoMsg DefaultGroupId t msg) (store s)
      = Ok tt (if enabled g0
               then addWrite (output g0)
                      (Format (UTC t) logLayout +:+ " " +:+ msg +:+ newline)
                      (store s)
               else store s).
Proof.
  intros Hrun.
  destruct (default_group_present ls s Hrun) as (g0 & others & Hgs & Hname).
  assert (Hg : groupAt (store s) DefaultGroupId = Some g0).
  { apply groupAt_Some. split; [unfold DefaultGroupId; lia|].
    now rewrite Hgs. }
  exists g0. split; [exact Hg|]. split; [exact Hname|].
  intros t msg. cbn [do_]. rewrite infoMsg_do_emit. unfold emit.
  rewrite Hg. now destruct (enabled g0).
Qed.

(** X13. [reset] does not clear anything: started again after any
    execution of the package, [reset] finds the registry non-empty and
    leaves the variables exactly as the execution left them: the groups
    registered before, their flags, and the trace flag. *)
Theorem reset_keeps_state (ls : list label) (s : Sys) :
  run ls initial = Next s ->
  store (reset (store s)) = store s /\
  logstream (reset (store s)) = [] /\
  closed (reset (store s)) = false.
Proof.
  intros Hrun.
  destruct (default_group_present ls s Hrun) as (g0 & others & Hgs & _).
  unfold reset. cbn [store logstream closed]. rewrite Hgs. auto.
Qed.

(** ** The default output *)

(** X14. Redirecting the default group: on a registry that has its first
    group, [SetDefaultOutput] writes nothing itself, and from then on an
    info-level command for the default group writes its line, without a
    group name, on the new output; if the default group was disabled it
    stays disabled and nothing is written. *)
Theorem SetDefaultOutput_redirects (st : Store) (g0 : groupData)
    (others : list groupData) (out : Writer) (t : Time) (msg : string) :
  groups st = g0 :: others ->
  exists st1,
    SetDefaultOutput out st = Ok tt st1 /\
    written st1 = written st /\
    do_ (infoMsg DefaultGroupId t msg) st1
    = Ok tt (if enabled g0
             then addWrite out
                    (Format (UTC t) logLayout +:+ " " +:+ msg +:+ newline)
                    st1
             else st1).
Proof.
  intros Hgs. eexists. split; [apply (SetDefaultOutput_cons st g0 others out Hgs)|].
  split; [reflexivity|].
  cbn [do_]. rewrite infoMsg_do_emit. unfold emit, groupAt, DefaultGroupId.
  cbn. now destruct (enabled g0).
Qed.

(** X15. The last [SetDefaultOutput] wins: two calls in a row come to the
    second call alone, on any registry, the empty one included. *)
Theorem SetDefaultOutput_last_wins (st : Store) (a b : Writer) :
  (SetDefaultOutput a ;;; SetDefaultOutput b) st = SetDefaultOutput b st.
Proof.
  unfold bind at 1. destruct (groups st) as [|g0 others] eqn:Hgs.
  - rewrite (SetDefaultOutput_empty st a Hgs).
    rewrite (SetDefaultOutput_empty st b Hgs).
    now rewrite (SetDefaultOutput_cons _ (defaultGroup a true) [] b).
  - rewrite (SetDefaultOutput_cons st g0 others a Hgs).
    rewrite (SetDefaultOutput_cons st g0 others b Hgs).
    now rewrite (SetDefaultOutput_cons _ (defaultGroup a (enabled g0)) others b).
Qed.

(** ** The channel and the output over a whole execution *)

(** X16. Nothing is lost, duplicated or reordered on the way, and
    nothing taken goes unexecuted: at every point of every execution the
    commands whose [do] has run on the variables, followed by the
    commands waiting in the channel, are exactly the commands sent so
    far, in the order of sending; and the variables and the writers are
    exactly what running those [do]s (and the direct calls made so far)
    leave behind. *)
Theorem fifo_invariant (st0 : Store) (ls : list label) (s : Sys) :
  run ls (reset st0) = Next s ->
  commandsOf (replay ls []) ++ logstream s = sends ls /\
  performAll (replay ls []) (store (reset st0)) = Ok tt (store s).
Proof.
  intros Hrun.
  pose proof (proto_history _ _
    (protocol_run ls [] (reset st0) s (protocol_reset st0) Hrun)) as Hh.
  destruct (replay_run ls (reset st0) s Hrun) as [Hstore Hhist].
  change (logstream (reset st0)) with (@nil logApi) in *.
  change (handled (reset st0)) with (@nil logApi) in Hhist.
  cbn [app] in Hhist, Hh. split; [congruence | exact Hstore].
Qed.

Lemma step_capacity (l : label) (s s' : Sys) :
  (length (logstream s) <= chanBufSize)%nat -> step l s = Next s' ->
  (length (logstream s') <= chanBufSize)%nat.
Proof.
  intros Hcap Hstep. destruct l; cbn [step] in Hstep.
  - unfold send in Hstep. destruct (closed s); [discriminate|].
    destruct (Nat.ltb_spec (length (logstream s)) chanBufSize);
      [|discriminate].
    injection Hstep as <-. cbn [logstream]. rewrite length_app. cbn. lia.
  - unfold direct in Hstep.
    destruct (RegisterGroup nm out on (store s)); [|discriminate].
    now injection Hstep as <-.
  - unfold direct in Hstep.
    destruct (SetDefaultOutput out (store s)); [|discriminate].
    now injection Hstep as <-.
  - unfold logRoutine in Hstep. destruct (worker s); [|discriminate].
    destruct (logstream s) as [|i rest].
    + destruct (closed s); [|discriminate]. injection Hstep as <-. cbn. lia.
    + destruct (do_ i (store s)); [|discriminate].
      injection Hstep as <-. cbn in *. lia.
  - unfold Done_close in Hstep. destruct (closed s); [discriminate|].
    now injection Hstep as <-.
  - unfold Done_wait in Hstep. destruct (doneCall s); try discriminate.
    destruct (waitGroup s =? 0); [|discriminate]. now injection Hstep as <-.
Qed.

(** X17. The channel is bounded and full means wait: in every execution
    the channel never holds more than [chanBufSize] commands; a send on
    the open channel blocks exactly when the channel holds that many, and
    it never drops the command; as soon as the worker has taken a command
    the send goes through. *)
Theorem channel_backpressure (st0 : Store) (ls : list label) (s : Sys)
    (c : logApi) :
  run ls (reset st0) = Next s ->
  (length (logstream s) <= chanBufSize)%nat /\
  (send c s = Blocked
   <-> closed s = false /\ length (logstream s) = chanBufSize) /\
  (forall s', closed s = false -> logstream s <> [] ->
     logRoutine s = Next s' ->
     exists s'', send c s' = Next s'' /\
                 logstream s'' = logstream s' ++ [c]).
Proof.
  intros Hrun.
  assert (Hcap : (length (logstream s) <= chanBufSize)%nat).
  { assert (H : forall s0 s1 : Sys,
              (length (logstream s0) <= chanBufSize)%nat ->
              run ls s0 = Next s1 ->
              (length (logstream s1) <= chanBufSize)%nat).
    { clear. induction ls as [|l ls IH]; intros s0 s1 Hc Hrun;
        cbn [run] in Hrun.
      - now injection Hrun as <-.
      - destruct (step l s0) as [s2| |] eqn:Hstep; try discriminate.
        apply (IH s2 s1); [|exact Hrun]. now apply (step_capacity l s0). }
    apply (H (reset st0) s); [cbn; lia | exact Hrun]. }
  split; [exact Hcap|]. split.
  - unfold send. destruct (closed s).
    + split; [discriminate | intros [H _]; discriminate].
    + destruct (Nat.ltb_spec (length (logstream s)) chanBufSize).
      * split; [discriminate | intros [_ H']; lia].
      * split; [intros _; split; [reflexivity | lia] | reflexivity].
  - intros s' Hopen Hne Hturn. unfold logRoutine in Hturn.
    destruct (worker s); [|discriminate].
    destruct (logstream s) as [|i rest] eqn:Hq; [contradiction|].
    destruct (do_ i (store s)); [|discriminate].
    injection Hturn as <-. unfold send. cbn [closed logstream].
    rewrite Hopen. cbn [length] in Hcap.
    destruct (Nat.ltb_spec (length rest) chanBufSize); [|lia].
    eexists. split; reflexivity.
Qed.

(** X18. [Done] cannot be called twice: in every execution, once [Done]
    has been called (whether or not it has returned yet) another call
    panics at once on closing the closed channel, and changes nothing. *)
Theorem Done_twice_panics (st0 : Store) (ls : list label) (s : Sys) :
  run ls (reset st0) = Next s -> doneCall s <> NotCalled ->
  Done s = Crash CloseOfClosedChannel s.
Proof.
  intros Hrun Hcalled.
  pose proof (protocol_run ls [] (reset st0) s (protocol_reset st0) Hrun)
    as Hp.
  unfold Done, Done_schedule. cbn [run step]. unfold Done_close.
  now rewrite (proto_closed _ _ Hp Hcalled).
Qed.

(** X19. After the drain the variables are what a sequential run gives:
    in an execution that touches the variables through the channel only,
    once [Done] has returned the store is the result of executing all the
    commands sent, enable commands included, one after the other in the
    order of sending, from the store at the start; none of them panicked. *)
Theorem drain_is_sequential (st0 : Store) (ls : list label) (s : Sys) :
  run ls (reset st0) = Next s -> doneCall s = Returned ->
  forallb viaChannel ls = true ->
  doAll (sends ls) (store (reset st0)) = Ok tt (store s).
Proof.
  intros Hrun Hret Hvia.
  pose proof (protocol_run ls [] (reset st0) s (protocol_reset st0) Hrun)
    as [Hh _ He Hd _ _].
  cbn [app] in Hh. destruct (He (Hd Hret)) as (_ & _ & Hq).
  rewrite Hq, app_nil_r in Hh.
  destruct (channel_run ls (reset st0) s Hvia Hrun) as (hs & Hhs & Hdo).
  change (handled (reset st0)) with (@nil logApi) in Hhs. cbn [app] in Hhs.
  congruence.
Qed.

Lemma do_written (c : logApi) (st st' : Store) (u : unit) :
  do_ c st = Ok u st' ->
  exists extra, written st' = written st ++ extra /\ (length extra <= 1)%nat.
Proof.
  assert (He : forall g t m, emit st g t m = Ok u st' ->
            exists extra, written st' = written st ++ extra /\
                          (length extra <= 1)%nat).
  { intros g t m. unfold emit. destruct (groupAt st g) as [gd|];
      [|discriminate].
    destruct (enabled gd); intros [= _ <-].
    - eexists. split; [reflexivity | cbn; lia].
    - exists []. split; [now rewrite app_nil_r | cbn; lia]. }
  assert (Hsame : written st' = written st ->
            exists extra, written st' = written st ++ extra /\
                          (length extra <= 1)%nat).
  { intros ->. exists []. split; [now rewrite app_nil_r | cbn; lia]. }
  destruct c as [g t m | g t m | on | g on |]; cbn [do_].
  - rewrite traceMsg_do_emit. destruct (traceEnabled st); [apply He|].
    intros [= _ <-]. now apply Hsame.
  - rewrite infoMsg_do_emit. apply He.
  - intros [= _ <-]. now apply Hsame.
  - rewrite cmdEnableGroup_do_spec. destruct (groupAt st g); [|discriminate].
    intros [= _ <-]. now apply Hsame.
  - discriminate.
Qed.

Lemma step_append_only (l : label) (s s' : Sys) :
  step l s = Next s' ->
  exists hs extra,
    handled s' = handled s ++ hs /\
    written (store s') = written (store s) ++ extra /\
    (length extra <= length hs)%nat.
Proof.
  assert (Hsame : handled s' = handled s ->
            written (store s') = written (store s) ->
            exists hs extra,
              handled s' = handled s ++ hs /\
              written (store s') = written (store s) ++ extra /\
              (length extra <= length hs)%nat).
  { intros -> ->. exists [], []. rewrite !app_nil_r. auto. }
  intros Hstep. destruct l; cbn [step] in Hstep.
  - unfold send in Hstep. destruct (closed s); [discriminate|].
    destruct (length (logstream s) <? chanBufSize)%nat; [|discriminate].
    injection Hstep as <-. now apply Hsame.
  - unfold direct in Hstep.
    destruct (RegisterGroup nm out on (store s)) as [id st1|] eqn:Hreg;
      [|discriminate].
    injection Hstep as <-.
    destruct (RegisterGroup_appends _ _ _ _ _ _ Hreg) as (_ & Hw & _).
    now apply Hsame.
  - unfold direct in Hstep.
    destruct (SetDefaultOutput out (store s)) as [[] st1|] eqn:Hset;
      [|discriminate].
    injection Hstep as <-.
    destruct (SetDefaultOutput_keeps _ _ _ Hset) as (_ & Hw & _).
    now apply Hsame.
  - unfold logRoutine in Hstep. destruct (worker s); [|discriminate].
    destruct (logstream s) as [|i rest].
    + destruct (closed s); [|discriminate]. injection Hstep as <-.
      now apply Hsame.
    + destruct (do_ i (store s)) as [u st1|] eqn:Hdo; [|discriminate].
      injection Hstep as <-. cbn [handled store].
      destruct (do_written i _ _ u Hdo) as (extra & Hw & Hlen).
      exists [i], extra. auto.
  - unfold Done_close in Hstep. destruct (closed s); [discriminate|].
    injection Hstep as <-. now apply Hsame.
  - unfold Done_wait in Hstep. destruct (doneCall s); try discriminate.
    destruct (waitGroup s =? 0); [|discriminate]. injection Hstep as <-.
    now apply Hsame.
Qed.

(** X20. Output is append-only: along any execution nothing that was
    written is ever removed or changed, new lines are added at the end,
    and there is at most one new line for each command the worker has
    completed in the meantime; registering a group, redirecting the
    default output, sending and [Done] write nothing. *)
Theorem output_append_only (ls : list label) (s s' : Sys) :
  run ls s = Next s' ->
  exists hs extra,
    handled s' = handled s ++ hs /\
    written (store s') = written (store s) ++ extra /\
    (length extra <= length hs)%nat.
Proof.
  revert s. induction ls as [|l ls IH]; intros s Hrun; cbn [run] in Hrun.
  - injection Hrun as <-. exists [], []. rewrite !app_nil_r. auto.
  - destruct (step l s) as [s1| |] eqn:Hstep; try discriminate.
    destruct (step_append_only l s s1 Hstep) as (h1 & e1 & Hh1 & Hw1 & Hl1).
    destruct (IH s1 Hrun) as (h2 & e2 & Hh2 & Hw2 & Hl2).
    exists (h1 ++ h2), (e1 ++ e2).
    rewrite Hh2, Hh1, Hw2, Hw1, !app_assoc, !length_app.
    repeat split. lia.
Qed.

(** ** The trace flag *)
Lemma do_trace_flag (c : logApi) (st st' : Store) (u : unit) :
  do_ c st = Ok u st' ->
  traceEnabled st'
  = match c with
    | cmdEnabletrace on => on
    | _ => traceEnabled st
    end.
Proof.
  destruct c as [g t m | g t m | on | g on |]; cbn [do_].
  - rewrite traceMsg_do_emit. unfold emit.
    destruct (traceEnabled st) eqn:Htr; [|intros [= _ <-]; exact Htr].
    destruct (groupAt st g) as [gd|]; [|discriminate].
    destruct (enabled gd); intros [= _ <-]; exact Htr.
  - rewrite infoMsg_do_emit. unfold emit.
    destruct (groupAt st g) as [gd|]; [|discriminate].
    destruct (enabled gd); now intros [= _ <-].
  - now intros [= _ <-].
  - rewrite cmdEnableGroup_do_spec. destruct (groupAt st g); [|discriminate].
    now intros [= _ <-].
  - discriminate.
Qed.

Lemma step_trace_off (l : label) (s s' : Sys) :
  traceEnabled (store s) = false ->
  Forall (fun c => c <> cmdEnabletrace true) (logstream s) ->
  Forall (fun c => c <> cmdEnabletrace true) (sends [l]) ->
  step l s = Next s' ->
  traceEnabled (store s') = false /\
  Forall (fun c => c <> cmdEnabletrace true) (logstream s').
Proof.
  intros Hoff Hq Hl Hstep. destruct l; cbn [step sends] in *.
  - unfold send in Hstep. destruct (closed s); [discriminate|].
    destruct (length (logstream s) <? chanBufSize)%nat; [|discriminate].
    injection Hstep as <-. cbn [store logstream]. split; [exact Hoff|].
    apply Forall_app. split; assumption.
  - unfold direct in Hstep.
    destruct (RegisterGroup nm out on (store s)) as [id st1|] eqn:Hreg;
      [|discriminate].
    injection Hstep as <-.
    destruct (RegisterGroup_appends _ _ _ _ _ _ Hreg) as (Ht & _).
    cbn [store withStore logstream]. split; [congruence | exact Hq].
  - unfold direct in Hstep.
    destruct (SetDefaultOutput out (store s)) as [[] st1|] eqn:Hset;
      [|discriminate].
    injection Hstep as <-.
    destruct (SetDefaultOutput_keeps _ _ _ Hset) as (Ht & _).
    cbn [store withStore logstream]. split; [congruence | exact Hq].
  - unfold logRoutine in Hstep. destruct (worker s); [|discriminate].
    destruct (logstream s) as [|i rest].
    + destruct (closed s); [|discriminate]. injection Hstep as <-.
      cbn. auto.
    + destruct (do_ i (store s)) as [u st1|] eqn:Hdo; [|discriminate].
      injection Hstep as <-. cbn [store logstream].
      apply Forall_cons in Hq as [Hi Hrest]. split; [|exact Hrest].
      rewrite (do_trace_flag i _ _ u Hdo).
      destruct i as [| | [|] | |]; try exact Hoff;
        [now destruct Hi | reflexivity].
  - unfold Done_close in Hstep. destruct (closed s); [discriminate|].
    injection Hstep as <-. cbn. auto.
  - unfold Done_wait in Hstep. destruct (doneCall s); try discriminate.
    destruct (waitGroup s =? 0); [|discriminate]. injection Hstep as <-.
    cbn. auto.
Qed.

(** X21. Tracing is off until someone turns it on: in every execution of
    the package from its start in which no [EnableTrace(true)] was sent,
    the trace flag is off at every point, so a trace-level command
    executed there, for any group index, is dropped without effect. *)
Theorem trace_off_by_default (ls : list label) (s : Sys) :
  run ls initial = Next s ->
  Forall (fun c => c <> cmdEnabletrace true) (sends ls) ->
  traceEnabled (store s) = false /\
  forall g t m, do_ (traceMsg g t m) (store s) = Ok tt (store s).
Proof.
  intros Hrun Hall.
  assert (H : forall s0 s1 : Sys,
            traceEnabled (store s0) = false ->
            Forall (fun c => c <> cmdEnabletrace true) (logstream s0) ->
            run ls s0 = Next s1 -> traceEnabled (store s1) = false).
  { clear Hrun. induction ls as [|l ls IH]; intros s0 s1 Hoff Hq Hrun;
      cbn [run] in Hrun.
    - now injection Hrun as <-.
    - destruct (step l s0) as [s2| |] eqn:Hstep; try discriminate.
      change (l :: ls) with ([l] ++ ls) in Hall.
      rewrite sends_app in Hall. apply Forall_app in Hall as [Hl Hls].
      destruct (step_trace_off l s0 s2 Hoff Hq Hl Hstep) as [Hoff2 Hq2].
      now apply (IH Hls s2 s1). }
  assert (Hoff : traceEnabled (store s) = false).
  { apply (H initial s); [reflexivity | constructor | exact Hrun]. }
  split; [exact Hoff|]. intros g t m. cbn [do_].
  now rewrite traceMsg_do_emit, Hoff.
Qed.

(** ** The further properties at sample inputs *)

Lemma panic_leaves_store_witness :
  do_ (infoMsg 9 leapNoon "x") testStore
  = Panicked (IndexOutOfRange 9 2) testStore /\
  testStore = testStore.
Proof.
  assert (H : do_ (infoMsg 9 leapNoon "x") testStore
              = Panicked (IndexOutOfRange 9 2) testStore) by reflexivity.
  split; [exact H|].
  exact (panic_leaves_store _ _ _ _ H).
Defined.

Lemma cmdEnableGroup_effect_witness :
  let gd := {| name := "test"; output := testWriter; enabled := true |} in
  groupAt testStore 1 = Some gd /\
  exists st',
    do_ (cmdEnableGroup 1 false) testStore = Ok tt st' /\
    groupAt st' 1
    = Some {| name := name gd; output := output gd; enabled := false |} /\
    (forall g', g' <> 1 -> groupAt st' g' = groupAt testStore g') /\
    length (groups st') = length (groups testStore) /\
    traceEnabled st' = traceEnabled testStore /\
    written st' = written testStore.
Proof.
  intros gd. split; [reflexivity|].
  exact (cmdEnableGroup_effect testStore 1 gd false eq_refl).
Defined.

Lemma disable_silences_group_witness :
  let gd := {| name := "test"; output := testWriter; enabled := true |} in
  groupAt testStore 1 = Some gd /\
  exists st1,
    do_ (cmdEnableGroup 1 false) testStore = Ok tt st1 /\
    (forall t m,
       do_ (infoMsg 1 t m) st1 = Ok tt st1 /\
       do_ (traceMsg 1 t m) st1 = Ok tt st1) /\
    (forall c g',
       logGroup c = Some g' -> g' <> 1 ->
       written (storeOf (do_ c st1)) = written (storeOf (do_ c testStore))).
Proof.
  intros gd. split; [reflexivity|].
  exact (disable_silences_group testStore 1 gd eq_refl).
Defined.

Lemma trace_off_batch_witness :
  let cs := [traceMsg 0 leapNoon "a"; traceMsg 1 leapNoon "b";
             traceMsg 42 leapNoon "c"] in
  Forall isTrace cs /\
  doAll (cmdEnabletrace false :: cs) testStore
  = Ok tt (setTraceEnabled false testStore).
Proof.
  intros cs.
  assert (H : Forall isTrace cs) by (repeat constructor).
  split; [exact H|]. exact (trace_off_batch testStore cs H).
Defined.

Lemma RegisterGroup_id_witness :
  let st' := setGroups (groups testStore
                          ++ [{| name := "audit"; output := 2%nat;
                                 enabled := true |}]) testStore in
  RegisterGroup "audit" 2%nat true testStore = Ok 2 st' /\
  (1 <= 2 /\
   2 = Z.of_nat (length (groups st')) - 1 /\
   groupAt st' 2
   = Some {| name := "audit"; output := 2%nat; enabled := true |} /\
   (forall g gd, groupAt testStore g = Some gd -> groupAt st' g = Some gd) /\
   traceEnabled st' = traceEnabled testStore /\
   written st' = written testStore).
Proof.
  intros st'.
  assert (H : RegisterGroup "audit" 2%nat true testStore = Ok 2 st')
    by reflexivity.
  split; [exact H|]. exact (RegisterGroup_id _ _ _ _ _ _ H).
Defined.

Lemma RegisterGroup_then_log_witness :
  let st' := setGroups (groups testStore
                          ++ [{| name := "audit"; output := 2%nat;
                                 enabled := true |}]) testStore in
  RegisterGroup "audit" 2%nat true testStore = Ok 2 st' /\
  do_ (infoMsg 2 leapNoon "login") st'
  = Ok tt (if true
           then addWrite 2%nat
                  (Format (UTC leapNoon) logLayout +:+ " [" +:+ "audit"
                     +:+ "] " +:+ "login" +:+ newline) st'
           else st').
Proof.
  intros st'.
  assert (H : RegisterGroup "audit" 2%nat true testStore = Ok 2 st')
    by reflexivity.
  split; [exact H|].
  exact (RegisterGroup_then_log _ _ _ _ _ _ leapNoon "login" H).
Defined.

Lemma RegisterGroup_panics_iff_witness :
  In "test" (map name (groups testStore)) /\
  exists p st', RegisterGroup "test" 2%nat true testStore = Panicked p st'.
Proof.
  assert (H : In "test" (map name (groups testStore))).
  { cbn. right. left. reflexivity. }
  split; [exact H|].
  exact (proj2 (RegisterGroup_panics_iff "test" 2%nat true testStore) H).
Defined.

Lemma RegisterGroup_empty_registry_witness :
  groups zeroStore = [] /\
  RegisterGroup EmptyString 2%nat true zeroStore
  = Ok 1 (setGroups [defaultGroup Stdout true;
                     {| name := EmptyString; output := 2%nat;
                        enabled := true |}] zeroStore)
  /\ (EmptyString = EmptyString ->
      ~ NoDup (map name (groups (storeOf
                 (RegisterGroup EmptyString 2%nat true zeroStore))))).
Proof.
  split; [reflexivity|].
  exact (RegisterGroup_empty_registry EmptyString 2%nat true zeroStore
           eq_refl).
Defined.

Lemma ids_stable_witness :
  let gd := {| name := "test"; output := testWriter; enabled := true |} in
  let ls := [Send (cmdEnableGroup 1 false); WorkerTurn;
             CallSetDefaultOutput 3%nat;
             CallRegisterGroup "audit" 2%nat true] in
  exists s',
    (hasDefault (store (reset testStore)) /\
     run ls (reset testStore) = Next s' /\
     groups (store (reset testStore)) !! 1%nat = Some gd) /\
    exists gd',
      groups (store s') !! 1%nat = Some gd' /\ name gd' = name gd /\
      ((1 <= 1)%nat -> output gd' = output gd).
Proof.
  intros gd ls.
  assert (Hd : hasDefault (store (reset testStore))).
  { exists (defaultGroup Stdout true), [gd]. split; reflexivity. }
  eexists. split.
  - split; [exact Hd|]. split; [vm_compute; reflexivity | reflexivity].
  - eapply (ids_stable ls (reset testStore) _ 1%nat gd Hd);
      [vm_compute; reflexivity | reflexivity].
Defined.

Lemma names_unique_witness :
  exists s,
    run sampleRun initial = Next s /\
    NoDup (map name (groups (store s))).
Proof.
  eexists. split; [vm_compute; reflexivity|].
  eapply (names_unique sampleRun). vm_compute. reflexivity.
Defined.

Lemma default_group_always_witness :
  exists s,
    run sampleRun initial = Next s /\
    exists g0,
      groupAt (store s) DefaultGroupId = Some g0 /\
      name g0 = EmptyString /\
      forall t msg,
        do_ (infoMsg DefaultGroupId t msg) (store s)
        = Ok tt (if enabled g0
                 then addWrite (output g0)
                        (Format (UTC t) logLayout +:+ " " +:+ msg
                           +:+ newline) (store s)
                 else store s).
Proof.
  eexists. split; [vm_compute; reflexivity|].
  eapply (default_group_always sampleRun). vm_compute. reflexivity.
Defined.

Lemma reset_keeps_state_witness :
  exists s,
    run sampleRun initial = Next s /\
    store (reset (store s)) = store s /\
    logstream (reset (store s)) = [] /\
    closed (reset (store s)) = false.
Proof.
  eexists. split; [vm_compute; reflexivity|].
  eapply (reset_keeps_state sampleRun). vm_compute. reflexivity.
Defined.

Lemma SetDefaultOutput_redirects_witness :
  let g0 := defaultGroup Stdout true in
  let others := [{| name := "test"; output := testWriter; enabled := true |}] in
  groups testStore = g0 :: others /\
  exists st1,
    SetDefaultOutput 3%nat testStore = Ok tt st1 /\
    written st1 = written testStore /\
    do_ (infoMsg DefaultGroupId leapNoon "hello") st1
    = Ok tt (if enabled g0
             then addWrite 3%nat
                    (Format (UTC leapNoon) logLayout +:+ " " +:+ "hello"
                       +:+ newline) st1
             else st1).
Proof.
  intros g0 others. split; [reflexivity|].
  exact (SetDefaultOutput_redirects testStore g0 others 3%nat leapNoon
           "hello" eq_refl).
Defined.

Lemma fifo_invariant_witness :
  let ls := firstn 7 sampleRun in
  exists s,
    run ls (reset zeroStore) = Next s /\
    logstream s = [infoMsg 0 leapNoon "hello"] /\
    commandsOf (replay ls []) ++ logstream s = sends ls /\
    performAll (replay ls []) (store (reset zeroStore)) = Ok tt (store s).
Proof.
  intros ls. eexists. split; [vm_compute; reflexivity|].
  split; [reflexivity|].
  eapply (fifo_invariant zeroStore ls). vm_compute. reflexivity.
Defined.

Lemma channel_backpressure_witness :
  let ls := firstn 3 sampleRun in
  let c := infoMsg 0 leapNoon "more" in
  exists s,
    run ls (reset zeroStore) = Next s /\
    (length (logstream s) <= chanBufSize)%nat /\
    (send c s = Blocked
     <-> closed s = false /\ length (logstream s) = chanBufSize) /\
    (forall s', closed s = false -> logstream s <> [] ->
       logRoutine s = Next s' ->
       exists s'', send c s' = Next s'' /\
                   logstream s'' = logstream s' ++ [c]).
Proof.
  intros ls c. eexists. split; [vm_compute; reflexivity|].
  eapply (channel_backpressure zeroStore ls). vm_compute. reflexivity.
Defined.

Lemma Done_twice_panics_witness :
  exists s,
    (run sampleRun (reset zeroStore) = Next s /\ doneCall s <> NotCalled) /\
    Done s = Crash CloseOfClosedChannel s.
Proof.
  eexists.
  assert (Hc : Returned <> NotCalled) by discriminate.
  split.
  - split; [vm_compute; reflexivity | exact Hc].
  - eapply (Done_twice_panics zeroStore sampleRun);
      [vm_compute; reflexivity | exact Hc].
Defined.

Lemma drain_is_sequential_witness :
  exists s,
    (run channelRun (reset testStore) = Next s /\
     doneCall s = Returned /\
     forallb viaChannel channelRun = true) /\
    doAll (sends channelRun) (store (reset testStore)) = Ok tt (store s).
Proof.
  eexists. split.
  - split; [vm_compute; reflexivity|]. split; reflexivity.
  - eapply (drain_is_sequential testStore channelRun);
      [vm_compute; reflexivity | reflexivity | reflexivity].
Defined.

Lemma output_append_only_witness :
  exists s',
    run sampleRun initial = Next s' /\
    exists hs extra,
      handled s' = handled initial ++ hs /\
      written (store s') = written (store initial) ++ extra /\
      (length extra <= length hs)%nat.
Proof.
  eexists. split; [vm_compute; reflexivity|].
  eapply (output_append_only sampleRun). vm_compute. reflexivity.
Defined.

Lemma trace_off_by_default_witness :
  exists s,
    (run sampleRun initial = Next s /\
     Forall (fun c => c <> cmdEnabletrace true) (sends sampleRun)) /\
    traceEnabled (store s) = false /\
    forall g t m, do_ (traceMsg g t m) (store s) = Ok tt (store s).
Proof.
  assert (Hall : Forall (fun c => c <> cmdEnabletrace true)
                   (sends sampleRun)).
  { repeat constructor; discriminate. }
  eexists. split.
  - split; [vm_compute; reflexivity | exact Hall].
  - eapply (trace_off_by_default sampleRun);
      [vm_compute; reflexivity | exact Hall].
Defined.
